(** * vmalert recording rules: app/vmalert/recording.go

    A shallow embedding of [RecordingRule] and of the functions of
    recording.go ([Exec], [stringifyLabels], [toTimeSeries], [UpdateWith],
    [RuleAPI] and the health-gauge callback registered by
    [newRecordingRule]), followed by the properties of the rule
    specification they satisfy or break. *)

From Stdlib Require Import ZArith Ascii String.
From stdpp Require Import gmap strings list sorting pretty.

Local Open Scope string_scope.
Local Open Scope list_scope.

(** ** Labels and the in-place sort *)

(** [prompbmarshal.Label] (and [datasource.Label], which has the same two
    fields): a name and a value, both Go strings, that is byte sequences. *)
Record Label := mkLabel { Label_Name : string; Label_Value : string }.

Global Instance Label_eq_dec : EqDecision Label.
Proof. solve_decision. Defined.

(** The comparison handed to [sort.Slice] in [stringifyLabels]:
    [labels[i].Name < labels[j].Name], byte-wise on Go strings. *)
Definition label_less (a b : Label) : bool :=
  String.ltb (Label_Name a) (Label_Name b).

Section insertion_sort.
Context {A : Type} (less : A → A → bool).

(** One pass of the inner loop of Go's insertion sort,
    [for j := i; j > a && less(j, j-1); j-- { swap(j, j-1) }]:
    the new element [x] moves left while it is less than its left
    neighbour. The prefix is kept reversed (nearest neighbour first). *)
Fixpoint sift_left (x : A) (rprefix : list A) : list A :=
  match rprefix with
  | [] => [x]
  | y :: rest => if less x y then y :: sift_left x rest else x :: rprefix
  end.

(** [sort.Slice(s, less)]: sorts [s] in place, here by insertion, which
    is what the Go library runs on short slices. sort.Slice promises a
    permutation of [s] in which no element is less than an earlier one, and
    no more; on labels with pairwise distinct names every algorithm that
    keeps this promise returns the list below
    (see [sort_Slice_contract_unique]). *)
Definition sort_Slice (s : list A) : list A :=
  reverse (foldl (λ rprefix x, sift_left x rprefix) [] s).
End insertion_sort.

(** ** Canonical key: [stringifyLabels] *)

(** The body of the loop [for i, l := range labels] over a
    [strings.Builder] [b]; [n] is [len(labels)] and [i] the index of the
    head of [labels]. *)
Fixpoint write_labels (n i : nat) (labels : list Label) (b : string) : string :=
  match labels with
  | [] => b
  | l :: rest =>
      let b := b +:+ Label_Name l in
      let b := b +:+ "=" in
      let b := b +:+ Label_Value l in
      let b := if decide (i ≠ n - 1) then b +:+ "," else b in
      write_labels n (S i) rest b
  end.

(** What [stringifyLabels] does to the label slice it is given: the slice
    header [labels := ts.Labels] shares its backing array with the caller's
    [ts.Labels], so the sort is visible to the caller. The function returns
    the key and the contents of that array when it returns. *)
Definition stringifyLabels_slice (labels : list Label) : string * list Label :=
  let labels :=
    if decide (1 < length labels) then sort_Slice label_less labels else labels in
  (write_labels (length labels) 0 labels "", labels).

(** The key alone. *)
Definition labels_key (labels : list Label) : string :=
  (stringifyLabels_slice labels).1.

(** The canonical key in the words of the specification: the labels in
    name-ascending order, each written [name=value], joined by single commas
    with no trailing separator. *)
Definition label_pair (l : Label) : string :=
  Label_Name l +:+ "=" +:+ Label_Value l.

Definition join_pairs (labels : list Label) : string :=
  String.concat "," (label_pair <$> labels).

(** Name-ascending order on labels, byte-wise. *)
Definition name_le (a b : Label) : Prop :=
  String.le (Label_Name a) (Label_Name b).

(** A string that holds no byte [c]. *)
Fixpoint lacks (c : ascii) (s : string) : bool :=
  match s with
  | EmptyString => true
  | String a s' => if decide (a = c) then false else lacks c s'
  end.

(** Labels whose text cannot be confused with the separators of the key:
    no [=] in the name, no [,] in the value. *)
Definition separable (l : Label) : Prop :=
  lacks "=" (Label_Name l) = true ∧ lacks "," (Label_Value l) = true.

(** ** Declarations that live outside recording.go *)

(** Types the file only names: Go's [float64] (sample values are carried,
    never computed with), [context.Context], [datasource.Type], and the
    dynamic types other than [*RecordingRule] that implement [Rule]
    (the alerting rule among them). *)
Class ExternalTypes := {
  float64 : Type;
  context_Context : Type;
  datasource_Type : Type;
  OtherRule : Type;
}.

(** [time.Time], as the instant [unix_sec] seconds and [unix_nsec]
    nanoseconds after the Unix epoch. *)
Record Time := mkTime { unix_sec : Z; unix_nsec : Z }.

(** [time.Unix(sec, nsec)] for [0 <= nsec < 1e9]; recording.go calls it
    with [nsec = 0] only. *)
Definition time_Unix (sec nsec : Z) : Time :=
  {| unix_sec := sec; unix_nsec := nsec |}.

Section data.
Context `{ExternalTypes}.

(** [datasource.Metric], what the querier returns, by the fields
    recording.go reads: [Labels], [Timestamp] (an [int64]) and [Value]
    (a [float64]). *)
Record Metric := mkMetric {
  Metric_Labels : list Label;
  Metric_Timestamp : Z;
  Metric_Value : float64;
}.

(** Modelled from the spec: [prompbmarshal.Sample] is declared outside
    this file; a sample is one (value, timestamp) pair. *)
Record Sample := mkSample {
  Sample_Value : float64;
  Sample_Timestamp : Time;
}.

(** Modelled from the spec: [prompbmarshal.TimeSeries] is declared
    outside this file; a label sequence plus samples. *)
Record TimeSeries := mkTimeSeries {
  TimeSeries_Labels : list Label;
  TimeSeries_Samples : list Sample;
}.
End data.

(** Go [error] values: the package-level sentinel [errDuplicate], the
    value [fmt.Errorf] builds around a [%w] verb ([msg] is the formatted
    text), and any other error, known by its text; the querier may return
    any of them. *)
Inductive error :=
  | errDuplicate
  | errorString (s : string)
  | wrapError (msg : string) (err : error).

Global Instance error_eq_dec : EqDecision error.
Proof. solve_decision. Defined.

(** Functions and constants the file uses but does not define, and Go's
    iteration over a map, which visits every entry once in an order the
    language leaves open. *)
Class ExternalFuns `{ExternalTypes} := {
  Type_String : datasource_Type → string;
  strconv_Quote : string → string;
  fmt_v_Metric : Metric → string;
  fmt_gosyntax : OtherRule → string;
  errDuplicate_text : string;
  gauge_0 : float64;
  gauge_1 : float64;
  range_map : gmap string string → list (string * string);
  range_map_perm : ∀ m, range_map m ≡ₚ map_to_list m;
}.

Section rule.
Context `{ExternalFuns}.

(** The [Error] method. *)
Definition Error (e : error) : string :=
  match e with
  | errDuplicate => errDuplicate_text
  | errorString s => s
  | wrapError msg _ => msg
  end.

(** [errors.Unwrap] and [errors.Is]. *)
Definition Unwrap (e : error) : option error :=
  match e with
  | wrapError _ err => Some err
  | _ => None
  end.

Fixpoint errors_Is (e target : error) : bool :=
  bool_decide (e = target) ||
  match e with
  | wrapError _ err => errors_Is err target
  | _ => false
  end.

(** [fmt.Errorf(format, ..., err)] with a trailing [": %w"]: [text] is
    the formatted text before the colon. *)
Definition fmt_Errorf_w (text : string) (err : error) : error :=
  wrapError (text +:+ ": " +:+ Error err) err.

(** The fields of [RecordingRule] that recording.go reads or writes.
    [q] is the bound querier (its answers are in [World] below), [mu] the
    lock (in [Mem]), [metrics] the gauge handle. [RuleID] and [GroupID]
    are [uint64]. *)
Record RecordingRule := mkRecordingRule {
  Type_ : datasource_Type;
  RuleID : N;
  Name : string;
  Expr : string;
  Labels : gmap string string;
  GroupID : N;
  lastExecTime : Time;
  lastExecError : option error;
}.

(** A value of the interface [Rule]: a (non-nil) [*RecordingRule], or
    anything else, for which the type assertion in [UpdateWith] fails. *)
Inductive Rule :=
  | Rule_RecordingRule (nr : RecordingRule)
  | Rule_other (o : OtherRule).

(** What [RuleAPI] returns; the fields are those of the composite
    literal in [RuleAPI]. *)
Record APIRecordingRule := mkAPIRecordingRule {
  API_ID : string;
  API_GroupID : string;
  API_Name : string;
  API_Type : string;
  API_Expression : string;
  API_LastError : string;
  API_LastExec : Time;
  API_Labels : gmap string string;
}.

(** *** Field accesses *)

Inductive field :=
  | F_Type | F_RuleID | F_Name | F_Expr | F_Labels | F_GroupID
  | F_lastExecTime | F_lastExecError.

Global Instance field_eq_dec : EqDecision field.
Proof. solve_decision. Defined.

Definition ftype (f : field) : Type :=
  match f with
  | F_Type => datasource_Type
  | F_RuleID => N
  | F_Name => string
  | F_Expr => string
  | F_Labels => gmap string string
  | F_GroupID => N
  | F_lastExecTime => Time
  | F_lastExecError => option error
  end.

Definition get (f : field) (rr : RecordingRule) : ftype f :=
  match f with
  | F_Type => Type_ rr
  | F_RuleID => RuleID rr
  | F_Name => Name rr
  | F_Expr => Expr rr
  | F_Labels => Labels rr
  | F_GroupID => GroupID rr
  | F_lastExecTime => lastExecTime rr
  | F_lastExecError => lastExecError rr
  end.

Definition set (f : field) : ftype f → RecordingRule → RecordingRule :=
  match f with
  | F_Type => λ v rr, mkRecordingRule v (RuleID rr) (Name rr) (Expr rr)
      (Labels rr) (GroupID rr) (lastExecTime rr) (lastExecError rr)
  | F_RuleID => λ v rr, mkRecordingRule (Type_ rr) v (Name rr) (Expr rr)
      (Labels rr) (GroupID rr) (lastExecTime rr) (lastExecError rr)
  | F_Name => λ v rr, mkRecordingRule (Type_ rr) (RuleID rr) v (Expr rr)
      (Labels rr) (GroupID rr) (lastExecTime rr) (lastExecError rr)
  | F_Expr => λ v rr, mkRecordingRule (Type_ rr) (RuleID rr) (Name rr) v
      (Labels rr) (GroupID rr) (lastExecTime rr) (lastExecError rr)
  | F_Labels => λ v rr, mkRecordingRule (Type_ rr) (RuleID rr) (Name rr)
      (Expr rr) v (GroupID rr) (lastExecTime rr) (lastExecError rr)
  | F_GroupID => λ v rr, mkRecordingRule (Type_ rr) (RuleID rr) (Name rr)
      (Expr rr) (Labels rr) v (lastExecTime rr) (lastExecError rr)
  | F_lastExecTime => λ v rr, mkRecordingRule (Type_ rr) (RuleID rr)
      (Name rr) (Expr rr) (Labels rr) (GroupID rr) v (lastExecError rr)
  | F_lastExecError => λ v rr, mkRecordingRule (Type_ rr) (RuleID rr)
      (Name rr) (Expr rr) (Labels rr) (GroupID rr) (lastExecTime rr) v
  end.

(** The status fields, which the comment on [mu] says the lock guards. *)
Definition is_status (f : field) : bool :=
  match f with
  | F_lastExecTime | F_lastExecError => true
  | _ => false
  end.

(** *** Programs over one rule

    A method of [*RecordingRule] is a tree of the effects it performs on
    the receiver and its surroundings, in program order: field reads and
    writes, [mu.Lock] and [mu.Unlock], the call [q.Query] and
    [time.Now]. *)
Inductive prog (A : Type) : Type :=
  | Ret (a : A)
  | Panic (msg : string)
  | Read (f : field) (k : ftype f → prog A)
  | Write (f : field) (v : ftype f) (k : prog A)
  | Lock (k : prog A)
  | Unlock (k : prog A)
  | Query (ctx : context_Context) (expr : string)
      (k : list Metric * option error → prog A)
  | Now (k : Time → prog A).
Global Arguments Ret {A} a.
Global Arguments Panic {A} msg.
Global Arguments Read {A} f k.
Global Arguments Write {A} f v k.
Global Arguments Lock {A} k.
Global Arguments Unlock {A} k.
Global Arguments Query {A} ctx expr k.
Global Arguments Now {A} k.

Fixpoint bind {A B} (p : prog A) (g : A → prog B) : prog B :=
  match p with
  | Ret a => g a
  | Panic msg => Panic msg
  | Read f k => Read f (λ v, bind (k v) g)
  | Write f v k => Write f v (bind k g)
  | Lock k => Lock (bind k g)
  | Unlock k => Unlock (bind k g)
  | Query ctx expr k => Query ctx expr (λ r, bind (k r) g)
  | Now k => Now (λ t, bind (k t) g)
  end.

Global Instance prog_ret : MRet prog := λ A a, Ret a.
Global Instance prog_bind : MBind prog := λ A B g p, bind p g.

Definition read (f : field) : prog (ftype f) := Read f Ret.
Definition write (f : field) (v : ftype f) : prog () := Write f v (Ret ()).
Definition mu_Lock : prog () := Lock (Ret ()).
Definition mu_Unlock : prog () := Unlock (Ret ()).
Definition q_Query (ctx : context_Context) (expr : string) :
  prog (list Metric * option error) := Query ctx expr Ret.
Definition time_Now : prog Time := Now Ret.
End rule.

(** ** Running a program *)

Section semantics.
Context `{ExternalFuns}.

(** The receiver and its lock [mu] (only [Lock] and [Unlock] of the
    [RWMutex] are used). *)
Record Mem := mkMem { object : RecordingRule; mu_held : bool }.

(** What surrounds one call: the answer of the bound querier to
    [Query(ctx, expr)] and the reading of the clock. *)
Record World := mkWorld {
  respond : context_Context → string → list Metric * option error;
  wall_clock : Time;
}.

Inductive outcome (A : Type) :=
  | Returned (a : A)
  | Panicked (msg : string)
  | Deadlocked.
Global Arguments Returned {A} a.
Global Arguments Panicked {A} msg.
Global Arguments Deadlocked {A}.

(** One goroutine running [p] to its end, alone. *)
Fixpoint run {A} (w : World) (p : prog A) (m : Mem) : outcome A * Mem :=
  match p with
  | Ret a => (Returned a, m)
  | Panic msg => (Panicked msg, m)
  | Read f k => run w (k (get f (object m))) m
  | Write f v k => run w k (mkMem (set f v (object m)) (mu_held m))
  | Lock k =>
      if mu_held m then (Deadlocked, m) else run w k (mkMem (object m) true)
  | Unlock k =>
      if mu_held m then run w k (mkMem (object m) false)
      else (Panicked "sync: Unlock of unlocked RWMutex", m)
  | Query ctx expr k => run w (k (respond w ctx expr)) m
  | Now k => run w (k (wall_clock w)) m
  end.

(** What an observer of the same run sees, in order. *)
Inductive event :=
  | EvRead (f : field)
  | EvWrite (f : field)
  | EvLock
  | EvUnlock
  | EvQuery (expr : string)
  | EvNow.

Global Instance event_eq_dec : EqDecision event.
Proof. solve_decision. Defined.

Fixpoint events {A} (w : World) (p : prog A) (m : Mem) : list event :=
  match p with
  | Ret _ | Panic _ => []
  | Read f k => EvRead f :: events w (k (get f (object m))) m
  | Write f v k => EvWrite f :: events w k (mkMem (set f v (object m)) (mu_held m))
  | Lock k =>
      if mu_held m then [] else EvLock :: events w k (mkMem (object m) true)
  | Unlock k =>
      if mu_held m then EvUnlock :: events w k (mkMem (object m) false) else []
  | Query ctx expr k => EvQuery expr :: events w (k (respond w ctx expr)) m
  | Now k => EvNow :: events w (k (wall_clock w)) m
  end.

(** Every access to a status field happens with the lock held: [held] is
    whether it is held before the first event. *)
Fixpoint guarded (held : bool) (tr : list event) : bool :=
  match tr with
  | [] => true
  | EvLock :: tr' => guarded true tr'
  | EvUnlock :: tr' => guarded false tr'
  | EvRead f :: tr' | EvWrite f :: tr' =>
      (negb (is_status f) || held) && guarded held tr'
  | _ :: tr' => guarded held tr'
  end.

(** One atomic step of a goroutine; [None] when it has finished or waits
    for the lock. *)
Definition step {A} (w : World) (p : prog A) (m : Mem) : option (prog A * Mem) :=
  match p with
  | Ret _ | Panic _ => None
  | Read f k => Some (k (get f (object m)), m)
  | Write f v k => Some (k, mkMem (set f v (object m)) (mu_held m))
  | Lock k => if mu_held m then None else Some (k, mkMem (object m) true)
  | Unlock k =>
      if mu_held m then Some (k, mkMem (object m) false)
      else Some (Panic "sync: Unlock of unlocked RWMutex", m)
  | Query ctx expr k => Some (k (respond w ctx expr), m)
  | Now k => Some (k (wall_clock w), m)
  end.

(** Two goroutines on the same rule under a schedule: [true] lets the
    first take a step, [false] the second; a goroutine that cannot move
    loses its turn. *)
Fixpoint interleave {A B} (w : World) (sched : list bool)
    (p : prog A) (q : prog B) (m : Mem) : prog A * prog B * Mem :=
  match sched with
  | [] => (p, q, m)
  | true :: sched' =>
      match step w p m with
      | Some (p', m') => interleave w sched' p' q m'
      | None => interleave w sched' p q m
      end
  | false :: sched' =>
      match step w q m with
      | Some (q', m') => interleave w sched' p q' m'
      | None => interleave w sched' p q m
      end
  end.
End semantics.

(** ** The functions of recording.go *)

Section recording.
Context `{ExternalFuns}.

(** [String] and [ID]. *)
Definition String_ : prog string := read F_Name.
Definition ID : prog N := read F_RuleID.

(** The callback of the gauge [vmalert_recording_rules_error] that
    [newRecordingRule] registers. *)
Definition errors_gauge : prog float64 :=
  mu_Lock;;
  e ← read F_lastExecError;
  match e with
  | None => mu_Unlock;; mret gauge_0
  | Some _ => mu_Unlock;; mret gauge_1
  end.

(** [stringifyLabels(ts)]: the key, and the caller's [ts] as it is once
    the function has returned (see [stringifyLabels_slice]). *)
Definition stringifyLabels (ts : TimeSeries) : string * TimeSeries :=
  let '(key, labels) := stringifyLabels_slice (TimeSeries_Labels ts) in
  (key, mkTimeSeries labels (TimeSeries_Samples ts)).

(** Modelled from the spec: [newTimeSeries] is defined outside this file;
    it builds a TimeSeries with the entries of [labels] as its label
    sequence and the one sample (value, timestamp). *)
Definition newTimeSeries (value : float64) (labels : gmap string string)
    (timestamp : Time) : TimeSeries :=
  mkTimeSeries ((λ kv, mkLabel kv.1 kv.2) <$> range_map labels)
               [mkSample value timestamp].

(** The first loop of [toTimeSeries]: the metric's labels, entered into a
    fresh map one after the other. *)
Definition labels_of_metric (mlabels : list Label) : gmap string string :=
  foldl (λ labels l, <[Label_Name l := Label_Value l]> labels) ∅ mlabels.

(** The map [toTimeSeries] hands to [newTimeSeries], from the metric's
    labels, the rule's [Name] and its [Labels]. *)
Definition overlay (mlabels : list Label) (name : string)
    (rrLabels : gmap string string) : gmap string string :=
  let labels := labels_of_metric mlabels in
  let labels := <["__name__" := name]> labels in
  foldl (λ labels kv, <[kv.1 := kv.2]> labels) labels (range_map rrLabels).

(** The TimeSeries [Exec] builds for the query result [r] under the rule
    [rr], as it is when the loop appends it (after [stringifyLabels] has
    run on it), and its canonical key. *)
Definition output_series (rr : RecordingRule) (r : Metric) : string * TimeSeries :=
  stringifyLabels
    (newTimeSeries (Metric_Value r)
       (overlay (Metric_Labels r) (Name rr) (Labels rr))
       (time_Unix (Metric_Timestamp r) 0)).

Definition output_key (rr : RecordingRule) (r : Metric) : string :=
  (output_series rr r).1.

(** The rule once a cycle has recorded its time and error. *)
Definition recorded (now : Time) (err : option error) (rr : RecordingRule) :
    RecordingRule :=
  set F_lastExecError err (set F_lastExecTime now rr).

(** The snapshot [RuleAPI] takes of a rule nobody else is writing to. *)
Definition snapshot (rr : RecordingRule) : APIRecordingRule :=
  mkAPIRecordingRule (pretty (RuleID rr)) (pretty (GroupID rr)) (Name rr)
    (Type_String (Type_ rr)) (Expr rr)
    (match lastExecError rr with Some err => Error err | None => "" end)
    (lastExecTime rr) (Labels rr).

Definition toTimeSeries (m : Metric) (timestamp : Time) : prog TimeSeries :=
  name ← read F_Name;
  rrLabels ← read F_Labels;
  mret (newTimeSeries (Metric_Value m)
          (overlay (Metric_Labels m) name rrLabels) timestamp).

(** The loop of [Exec] over the rest of [qMetrics], then the return; the
    deferred [mu.Unlock] runs once the results are computed. *)
Fixpoint Exec_loop (qMetrics : list Metric) (duplicates : gset string)
    (tss : list TimeSeries) : prog (list TimeSeries * option error) :=
  match qMetrics with
  | [] => mu_Unlock;; mret (tss, None)
  | r :: rest =>
      ts ← toTimeSeries r (time_Unix (Metric_Timestamp r) 0);
      let '(key, ts) := stringifyLabels ts in
      if decide (key ∈ duplicates) then
        write F_lastExecError (Some errDuplicate);;
        mu_Unlock;;
        mret ([], Some (fmt_Errorf_w
          ("original metric " +:+ fmt_v_Metric r +:+
           "; resulting labels " +:+ strconv_Quote key) errDuplicate))
      else
        Exec_loop rest ({[key]} ∪ duplicates) (tss ++ [ts])
  end.

Definition Exec (ctx : context_Context) (series : bool) :
    prog (list TimeSeries * option error) :=
  if negb series then mret ([], None)
  else
    expr ← read F_Expr;
    '(qMetrics, err) ← q_Query ctx expr;
    mu_Lock;;
    now ← time_Now;
    write F_lastExecTime now;;
    write F_lastExecError err;;
    match err with
    | Some e =>
        expr ← read F_Expr;
        mu_Unlock;;
        mret ([], Some (fmt_Errorf_w
          ("failed to execute query " +:+ strconv_Quote expr) e))
    | None => Exec_loop qMetrics ∅ []
    end.

Definition UpdateWith (r : Rule) : prog (option error) :=
  match r with
  | Rule_other o =>
      mret (Some (errorString
        ("BUG: attempt to update recroding rule with wrong type " +:+
         fmt_gosyntax o)))
  | Rule_RecordingRule nr =>
      write F_Expr (Expr nr);;
      write F_Labels (Labels nr);;
      mret None
  end.

Definition RuleAPI : prog APIRecordingRule :=
  e ← read F_lastExecError;
  lastErr ← match e with
            | None => mret ""
            | Some _ =>
                e' ← read F_lastExecError;
                match e' with
                | Some err => mret (Error err)
                | None => Panic "invalid memory address or nil pointer dereference"
                end
            end;
  id ← ID;
  gid ← read F_GroupID;
  name ← read F_Name;
  typ ← read F_Type;
  expr ← read F_Expr;
  lastExec ← read F_lastExecTime;
  labels ← read F_Labels;
  mret (mkAPIRecordingRule (pretty id) (pretty gid) name (Type_String typ)
          expr lastErr lastExec labels).
End recording.

(** Strictly ascending names. *)
Definition name_lt (a b : Label) : Prop := label_less a b = true.

(** ** Sample inputs

    One choice of the outside declarations, used to run the functions on
    concrete inputs: sample values are integers, a context carries nothing,
    a datasource type and a foreign rule are known by their names, map
    iteration follows [map_to_list]. *)

Definition dquote : string := String (ascii_of_nat 34) "".

#[local] Instance sample_types : ExternalTypes := {|
  float64 := Z;
  context_Context := unit;
  datasource_Type := string;
  OtherRule := string;
|}.

#[local] Instance sample_funs : @ExternalFuns sample_types := {|
  Type_String t := t;
  strconv_Quote s := dquote +:+ s +:+ dquote;
  fmt_v_Metric _ := "{...}";
  fmt_gosyntax o := o;
  errDuplicate_text :=
    "result contains metrics with the same labelset after applying rule labels";
  gauge_0 := 0%Z;
  gauge_1 := 1%Z;
  range_map := map_to_list;
  range_map_perm m := reflexivity (map_to_list m);
|}.

(** Label slices: out of name order, in name order, with a repeated name,
    and with separator bytes inside a value. *)
Definition labels_b_a : list Label := [mkLabel "b" "1"; mkLabel "a" "2"].
Definition labels_a_b : list Label := [mkLabel "a" "2"; mkLabel "b" "1"].
Definition labels_a1_a2 : list Label := [mkLabel "a" "1"; mkLabel "a" "2"].
Definition labels_a2_a1 : list Label := [mkLabel "a" "2"; mkLabel "a" "1"].
Definition labels_one_long : list Label := [mkLabel "a" "b,c=d"].
Definition labels_two_short : list Label := [mkLabel "a" "b"; mkLabel "c" "d"].

Definition series_of (labels : list Label) : TimeSeries :=
  mkTimeSeries labels [mkSample 1%Z (time_Unix 0 0)].

(** The rule [up_count] with the static label [env=prod], last run at the
    epoch without error, and query results for it: [job=a], [job=b], and
    a second [job=a] that differs only in the label the rule overrides. *)
Definition rule_up_count : RecordingRule :=
  mkRecordingRule "prometheus" 7 "up_count" "count(up) by (job)"
    {[ "env" := "prod" ]} 3 (time_Unix 0 0) None.

Definition metric_a : Metric := mkMetric [mkLabel "job" "a"] 1700000000 1%Z.
Definition metric_b : Metric := mkMetric [mkLabel "job" "b"] 1700000000 2%Z.
Definition metric_a_dev : Metric :=
  mkMetric [mkLabel "job" "a"; mkLabel "env" "dev"] 1700000000 5%Z.

Definition answer (qMetrics : list Metric) (err : option error) (now : Z) : World :=
  mkWorld (λ _ _, (qMetrics, err)) (time_Unix now 0).

Definition world_ok : World := answer [metric_a; metric_b] None 1700000005.
Definition world_dup : World := answer [metric_a; metric_a_dev] None 1700000005.
Definition world_down : World :=
  answer [] (Some (errorString "connection refused")) 1700000001.

(** ** Lock discipline of a method

    The shapes of method the lock makes atomic: a critical section reads
    any field, writes status fields only and ends with [mu.Unlock] followed
    by the return; a disciplined method touches no status field and writes
    nothing before it takes the lock, and holds it for one critical section
    (or returns without ever taking it). *)

Section discipline.
Context `{ExternalFuns}.

Inductive critical {A : Type} : prog A → Prop :=
  | critical_Unlock a : critical (Unlock (Ret a))
  | critical_Read f k : (∀ v, critical (k v)) → critical (Read f k)
  | critical_Write f v k :
      is_status f = true → critical k → critical (Write f v k)
  | critical_Now k : (∀ t, critical (k t)) → critical (Now k).

Inductive disciplined {A : Type} : prog A → Prop :=
  | disciplined_Ret a : disciplined (Ret a)
  | disciplined_Read f k :
      is_status f = false → (∀ v, disciplined (k v)) → disciplined (Read f k)
  | disciplined_Query ctx expr k :
      (∀ r, disciplined (k r)) → disciplined (Query ctx expr k)
  | disciplined_Lock k : critical k → disciplined (Lock k).

(** Two rules with the same configuration: they agree on every field but
    the status fields. *)
Definition same_config (rr1 rr2 : RecordingRule) : Prop :=
  ∀ f, is_status f = false → get f rr1 = get f rr2.

(** What the gauge reports for a rule. *)
Definition health (rr : RecordingRule) : float64 :=
  match lastExecError rr with
  | None => gauge_0
  | Some _ => gauge_1
  end.

(** [p] is what is left of the method [p0], started on [m0], while it has
    not yet taken the lock. *)
Definition prelude_of {A} (w : World) (m0 : Mem) (p0 p : prog A) : Prop :=
  disciplined p ∧
  ∀ m1, same_config (object m1) (object m0) → mu_held m1 = false →
        run w p m1 = run w p0 m1.

(** The states two disciplined methods [p0] and [q0], started together on
    the unlocked [m0], can be in when [q0] has not taken the lock before
    [p0]: nobody has locked yet; [p0] is in its critical section; [p0] has
    returned; [q0] is in its critical section after that; both have
    returned. *)
Inductive first_then {A B} (w : World) (m0 : Mem) (p0 : prog A) (q0 : prog B) :
    prog A → prog B → Mem → Prop :=
  | ft_none p q :
      prelude_of w m0 p0 p → prelude_of w m0 q0 q →
      first_then w m0 p0 q0 p q m0
  | ft_crit p q m :
      mu_held m = true → same_config (object m) (object m0) →
      critical p → run w p m = run w p0 m0 →
      prelude_of w m0 q0 q →
      first_then w m0 p0 q0 p q m
  | ft_done a q m :
      run w p0 m0 = (Returned a, m) → mu_held m = false →
      same_config (object m) (object m0) →
      prelude_of w m0 q0 q →
      first_then w m0 p0 q0 (Ret a) q m
  | ft_done_crit a m1 q m :
      run w p0 m0 = (Returned a, m1) → mu_held m = true →
      critical q → run w q m = run w q0 m1 →
      first_then w m0 p0 q0 (Ret a) q m
  | ft_both a b m1 m :
      run w p0 m0 = (Returned a, m1) → run w q0 m1 = (Returned b, m) →
      first_then w m0 p0 q0 (Ret a) (Ret b) m.
End discipline.

(** A schedule for the gauge callback next to a cycle of [Exec]: [Exec]
    reads [Expr], queries and locks; the callback then asks for the lock
    three times; [Exec] finishes; the callback runs. *)
Definition sched_gauge_in_cycle : list bool :=
  replicate 3 false ++ replicate 3 true ++ replicate 12 false ++ replicate 3 true.

(** A metric that carries the label [job] twice. *)
Definition metric_job_twice : Metric :=
  mkMetric [mkLabel "job" "a"; mkLabel "instance" "i"; mkLabel "job" "b"]
           1700000000 1%Z.

(** ** [newRecordingRule]

    The fields of [config.Rule] and of the group that [newRecordingRule]
    reads. *)

Section construction.
Context `{ExternalFuns}.

Record config_Rule := mkConfigRule {
  cfg_Type : datasource_Type;
  cfg_ID : N;
  cfg_Record : string;
  cfg_Expr : string;
  cfg_Labels : gmap string string;
}.

(** The zero [time.Time], which a new rule has as [lastExecTime]:
    January 1 of year 1, 00:00 UTC. *)
Definition time_zero : Time := mkTime (-62135596800) 0.

(** [newRecordingRule(qb, group, cfg)]: the rule, and the name under
    which its gauge is handed to [getOrCreateGauge] with the callback
    [errors_gauge]. [group_ID] is [group.ID()], [group_Name] is
    [group.Name]. The querier [qb.BuildWithParams] returns is the one whose
    answers [World] holds. *)
Definition newRecordingRule (group_ID : N) (group_Name : string)
    (cfg : config_Rule) : RecordingRule * string :=
  let rr := mkRecordingRule (cfg_Type cfg) (cfg_ID cfg) (cfg_Record cfg)
              (cfg_Expr cfg) (cfg_Labels cfg) group_ID time_zero None in
  let labels :=
    "recording=" +:+ strconv_Quote (Name rr) +:+
    ", group=" +:+ strconv_Quote group_Name +:+
    ", id=" +:+ dquote +:+ pretty (RuleID rr) +:+ dquote in
  (rr, "vmalert_recording_rules_error{" +:+ labels +:+ "}").
End construction.

(** The same outside declarations with another order of iteration over
    maps. *)
Definition with_range `{T : ExternalTypes} (F : ExternalFuns)
    (rm : gmap string string → list (string * string))
    (Hrm : ∀ m, rm m ≡ₚ map_to_list m) : ExternalFuns := {|
  Type_String := @Type_String T F;
  strconv_Quote := @strconv_Quote T F;
  fmt_v_Metric := @fmt_v_Metric T F;
  fmt_gosyntax := @fmt_gosyntax T F;
  errDuplicate_text := @errDuplicate_text T F;
  gauge_0 := @gauge_0 T F;
  gauge_1 := @gauge_1 T F;
  range_map := rm;
  range_map_perm := Hrm;
|}.

(** Map iteration in the reverse of the order of [map_to_list]. *)
Definition range_reversed (m : gmap string string) : list (string * string) :=
  reverse (map_to_list m).

(** A rule as hot reload would deliver it: another expression, other
    static labels, and another name. *)
Definition rule_reloaded : RecordingRule :=
  mkRecordingRule "prometheus" 7 "up_total" "sum(up) by (job)"
    {[ "env" := "staging" ]} 3 (time_Unix 0 0) None.

Definition world_reloaded : World :=
  mkWorld (λ _ expr, if String.eqb expr "sum(up) by (job)"
                     then ([metric_a; metric_b], None)
                     else ([], Some (errorString "unknown expression")))
          (time_Unix 1700000009 0).

Definition cfg_up_count : config_Rule :=
  mkConfigRule "prometheus" 7 "up_count" "count(up) by (job)"
    {[ "env" := "prod" ]}.


(** * Properties *)

(** ** Strings *)

Lemma app_cons a s t : String a s +:+ t = String a (s +:+ t).
Proof. reflexivity. Qed.

Lemma app_empty_l s : "" +:+ s = s.
Proof. reflexivity. Qed.

Lemma app_empty_r s : s +:+ "" = s.
Proof. induction s as [|a s IH]; [done|]. by rewrite app_cons, IH. Qed.

Lemma app_assoc' s t u : (s +:+ t) +:+ u = s +:+ (t +:+ u).
Proof. induction s as [|a s IH]; [done|]. by rewrite !app_cons, IH. Qed.

(** A string without [c] followed by [c] splits in one way only. *)
Lemma split_at_unique c a1 a2 r1 r2 :
  lacks c a1 = true → lacks c a2 = true →
  a1 +:+ String c r1 = a2 +:+ String c r2 → a1 = a2 ∧ r1 = r2.
Proof.
  revert a2. induction a1 as [|x a1 IH]; intros [|y a2] H1 H2 E;
    rewrite ?app_cons, ?app_empty_l in E; simpl in H1, H2.
  - by simplify_eq.
  - injection E as <- _. by destruct (decide (c = c)).
  - injection E as -> _. by destruct (decide (c = c)).
  - injection E as -> E. destruct (decide (y = c)); [done|].
    destruct (IH a2 H1 H2 E) as [-> ->]. done.
Qed.

Lemma lacks_app_sep c a r : lacks c (a +:+ String c r) = false.
Proof.
  induction a as [|x a IH]; rewrite ?app_cons, ?app_empty_l; simpl.
  - by destruct (decide (c = c)).
  - by destruct (decide (x = c)).
Qed.

(** ** The sort *)

Lemma ltb_false_le s1 s2 : String.ltb s1 s2 = false ↔ String.le s2 s1.
Proof.
  unfold String.le, String.ltb, String.leb.
  rewrite (String.compare_antisym s2 s1).
  destruct (String.compare s1 s2); simpl; naive_solver.
Qed.

Lemma ltb_true_le s1 s2 : String.ltb s1 s2 = true → String.le s1 s2.
Proof.
  unfold String.le, String.ltb, String.leb.
  destruct (String.compare s1 s2); simpl; naive_solver.
Qed.

Lemma ltb_irrefl s : String.ltb s s = false.
Proof. by apply ltb_false_le. Qed.

Global Instance name_le_trans : Transitive name_le.
Proof. intros a b c. unfold name_le. apply transitivity. Qed.

Lemma label_less_false a b : label_less a b = false ↔ name_le b a.
Proof. apply ltb_false_le. Qed.

Lemma label_less_true a b : label_less a b = true → name_le a b.
Proof. apply ltb_true_le. Qed.

Lemma sift_left_perm {A} (less : A → A → bool) x rp :
  sift_left less x rp ≡ₚ x :: rp.
Proof.
  induction rp as [|y rp IH]; simpl; [done|].
  destruct (less x y); [|done]. rewrite IH. apply Permutation_swap.
Qed.

Lemma sort_Slice_perm {A} (less : A → A → bool) s : sort_Slice less s ≡ₚ s.
Proof.
  unfold sort_Slice. rewrite reverse_Permutation.
  assert (∀ rp, foldl (λ rp x, sift_left less x rp) rp s ≡ₚ s ++ rp) as Hg.
  { induction s as [|x s IH]; intros rp; simpl; [done|].
    rewrite IH, sift_left_perm. by rewrite Permutation_middle. }
  by rewrite Hg, app_nil_r.
Qed.

Lemma sift_left_hd x rp z :
  HdRel (flip name_le) z rp → name_le x z →
  HdRel (flip name_le) z (sift_left label_less x rp).
Proof.
  intros Hrp Hx. destruct rp as [|y rp]; simpl; [by constructor|].
  destruct (label_less x y); constructor; [|done].
  by inv Hrp.
Qed.

Lemma sift_left_sorted x rp :
  Sorted (flip name_le) rp → Sorted (flip name_le) (sift_left label_less x rp).
Proof.
  induction 1 as [|y rp Hs IH Hhd]; simpl; [by repeat constructor|].
  destruct (label_less x y) eqn:E.
  - constructor; [done|]. apply sift_left_hd; [done|].
    by apply label_less_true.
  - constructor; [by constructor|]. constructor. by apply label_less_false.
Qed.

Lemma sort_Slice_sorted s : Sorted name_le (sort_Slice label_less s).
Proof.
  unfold sort_Slice.
  assert (∀ rp, Sorted (flip name_le) rp →
    Sorted (flip name_le) (foldl (λ rp x, sift_left label_less x rp) rp s)) as Hg.
  { induction s as [|x s IH]; intros rp Hrp; simpl; [done|].
    apply IH. by apply sift_left_sorted. }
  apply (Sorted_reverse (flip name_le)). apply Hg. constructor.
Qed.

(** Two name-sorted arrangements of labels with pairwise distinct names
    are the same list. *)
Lemma name_sorted_unique s1 s2 :
  NoDup (Label_Name <$> s1) → s1 ≡ₚ s2 →
  Sorted name_le s1 → Sorted name_le s2 → s1 = s2.
Proof.
  intros Hnd Hp H1 H2. apply (Sorted_unique_strong name_le); [|done..].
  intros x1 x2 Hx1 Hx2 Hle1 Hle2.
  assert (Label_Name x1 = Label_Name x2) as Hn.
  { unfold name_le in *. by apply (anti_symm String.le). }
  rewrite <- Hp in Hx2.
  apply list_elem_of_lookup in Hx1 as [i Hi], Hx2 as [j Hj].
  assert (i = j) as ->; [|congruence].
  eapply NoDup_lookup; [exact Hnd| |]; rewrite list_lookup_fmap.
  - by rewrite Hi.
  - by rewrite Hj, Hn.
Qed.

(** Whatever algorithm [sort.Slice] runs, it returns a name-sorted
    permutation of its input; on labels with pairwise distinct names that
    is the list [sort_Slice] returns. *)
Lemma sort_Slice_contract_unique s s' :
  NoDup (Label_Name <$> s) → s' ≡ₚ s → Sorted name_le s' →
  s' = sort_Slice label_less s.
Proof.
  intros Hnd Hp Hs. apply name_sorted_unique; [| |done|].
  - by rewrite Hp.
  - by rewrite sort_Slice_perm.
  - apply sort_Slice_sorted.
Qed.

Lemma Sorted_app_tail {A} (R : relation A) l1 l2 :
  Sorted R (l1 ++ l2) → Sorted R l2.
Proof. induction l1 as [|x l1 IH]; simpl; [done|]. intros Hs. apply IH. by inv Hs. Qed.

(** A slice that is already in name order is left as it is. *)
Lemma sort_Slice_sorted_id s :
  Sorted name_le s → sort_Slice label_less s = s.
Proof.
  intros Hs. unfold sort_Slice.
  assert (∀ rp, Sorted name_le (reverse rp ++ s) →
    foldl (λ rp x, sift_left label_less x rp) rp s = reverse s ++ rp) as Hg.
  { clear Hs. induction s as [|x s IH]; intros rp Hrp; simpl; [done|].
    assert (sift_left label_less x rp = x :: rp) as ->.
    { destruct rp as [|y rp]; [done|]. simpl.
      rewrite reverse_cons, <- app_assoc in Hrp. simpl in Hrp.
      apply Sorted_app_tail in Hrp. inv Hrp.
      match goal with Hh : HdRel _ _ _ |- _ => inv Hh end.
      assert (label_less x y = false) as ->; [|done].
      by apply label_less_false. }
    rewrite IH.
    - by rewrite reverse_cons, <- app_assoc.
    - by rewrite reverse_cons, <- app_assoc. }
  rewrite Hg by done. by rewrite app_nil_r, reverse_involutive.
Qed.

(** ** The canonical key *)

Lemma join_pairs_cons l rest :
  join_pairs (l :: rest) =
  match rest with
  | [] => label_pair l
  | _ :: _ => label_pair l +:+ "," +:+ join_pairs rest
  end.
Proof. by destruct rest. Qed.

(** Refinement: the loop of [stringifyLabels] writes the comma-joined
    pairs of the specification. *)
Lemma write_labels_join labels : ∀ n i b,
  n = i + length labels →
  write_labels n i labels b = b +:+ join_pairs labels.
Proof.
  induction labels as [|l rest IH]; intros n i b Hn; simpl.
  { by rewrite app_empty_r. }
  rewrite join_pairs_cons. simpl in Hn. destruct rest as [|l' rest'].
  - simpl. destruct (decide (i ≠ n - 1)) as [Hne|_]; [simpl in Hn; lia|].
    unfold label_pair. by rewrite !app_assoc'.
  - rewrite IH by (simpl in *; lia).
    destruct (decide (i ≠ n - 1)) as [_|He]; [|simpl in Hn; lia].
    unfold label_pair. by rewrite !app_assoc'.
Qed.

Lemma stringifyLabels_slice_perm labels :
  (stringifyLabels_slice labels).2 ≡ₚ labels.
Proof.
  unfold stringifyLabels_slice. simpl.
  destruct (decide (1 < length labels)); [apply sort_Slice_perm|done].
Qed.

Lemma stringifyLabels_slice_sorted labels :
  Sorted name_le (stringifyLabels_slice labels).2.
Proof.
  unfold stringifyLabels_slice. simpl.
  destruct (decide (1 < length labels)) as [|Hn]; [apply sort_Slice_sorted|].
  destruct labels as [|a [|b labels]]; [by repeat constructor..|].
  simpl in Hn. lia.
Qed.

Lemma labels_key_join labels :
  labels_key labels = join_pairs (stringifyLabels_slice labels).2.
Proof.
  unfold labels_key, stringifyLabels_slice. simpl.
  by rewrite write_labels_join, app_empty_l by lia.
Qed.

Lemma stringifyLabels_slice_id labels :
  Sorted name_le labels → (stringifyLabels_slice labels).2 = labels.
Proof.
  intros Hs. unfold stringifyLabels_slice. simpl.
  destruct (decide (1 < length labels)); [by apply sort_Slice_sorted_id|done].
Qed.

(** On labels with pairwise distinct names the key does not depend on the
    order of the slice. *)
Lemma labels_key_perm l1 l2 :
  NoDup (Label_Name <$> l1) → l1 ≡ₚ l2 → labels_key l1 = labels_key l2.
Proof.
  intros Hnd Hp. rewrite !labels_key_join. f_equal.
  apply name_sorted_unique; try apply stringifyLabels_slice_sorted.
  - by rewrite stringifyLabels_slice_perm.
  - by rewrite !stringifyLabels_slice_perm.
Qed.

(** The joined text determines the list of separable labels it came
    from. *)
Lemma label_pair_inj_tail l1 l2 r1 r2 :
  separable l1 → separable l2 →
  label_pair l1 +:+ r1 = label_pair l2 +:+ r2 →
  Label_Name l1 = Label_Name l2 ∧
  Label_Value l1 +:+ r1 = Label_Value l2 +:+ r2.
Proof.
  intros [Hn1 _] [Hn2 _] E. unfold label_pair in E.
  rewrite !app_assoc' in E. change ("=" +:+ ?s) with (String "=" s) in E.
  by apply (split_at_unique "=").
Qed.

Lemma join_pairs_inj l1 : ∀ l2,
  Forall separable l1 → Forall separable l2 →
  join_pairs l1 = join_pairs l2 → l1 = l2.
Proof.
  induction l1 as [|a l1 IH]; intros [|b l2] H1 H2 E.
  - done.
  - exfalso. rewrite join_pairs_cons in E. change (join_pairs []) with "" in E.
    unfold label_pair in E. destruct l2, (Label_Name b); discriminate E.
  - exfalso. rewrite join_pairs_cons in E. change (join_pairs []) with "" in E.
    unfold label_pair in E. destruct l1, (Label_Name a); discriminate E.
  - inv H1. inv H2. rewrite !join_pairs_cons in E.
    match goal with Ha : separable a, Hb : separable b |- _ =>
      rename Ha into Hsa; rename Hb into Hsb end.
    assert (∀ l : Label, label_pair l = label_pair l +:+ "") as Hnil.
    { intros l. by rewrite app_empty_r. }
    destruct l1 as [|a' l1], l2 as [|b' l2].
    + rewrite (Hnil a), (Hnil b) in E.
      apply label_pair_inj_tail in E as [En Ev]; [|done..].
      rewrite !app_empty_r in Ev. destruct a, b; simpl in *; by subst.
    + exfalso. rewrite (Hnil a) in E.
      apply label_pair_inj_tail in E as [_ Ev]; [|done..].
      rewrite app_empty_r in Ev. destruct Hsa as [_ Hv].
      rewrite Ev in Hv. change ("," +:+ ?s) with (String "," s) in Hv.
      by rewrite lacks_app_sep in Hv.
    + exfalso. rewrite (Hnil b) in E.
      apply label_pair_inj_tail in E as [_ Ev]; [|done..].
      rewrite app_empty_r in Ev. destruct Hsb as [_ Hv].
      rewrite <- Ev in Hv. change ("," +:+ ?s) with (String "," s) in Hv.
      by rewrite lacks_app_sep in Hv.
    + apply label_pair_inj_tail in E as [En Ev]; [|done..].
      change ("," +:+ ?s) with (String "," s) in Ev.
      apply (split_at_unique ",") in Ev as [Ev Er];
        [|apply Hsa|apply Hsb].
      f_equal; [destruct a, b; simpl in *; by subst|].
      by apply IH.
Qed.

(** Equal keys of separable labels: the two slices hold the same labels. *)
Lemma labels_key_inj l1 l2 :
  Forall separable l1 → Forall separable l2 →
  labels_key l1 = labels_key l2 → l1 ≡ₚ l2.
Proof.
  intros H1 H2 E. rewrite !labels_key_join in E.
  apply join_pairs_inj in E.
  - by rewrite <- (stringifyLabels_slice_perm l1), E, stringifyLabels_slice_perm.
  - by rewrite stringifyLabels_slice_perm.
  - by rewrite stringifyLabels_slice_perm.
Qed.

(** ** [stringifyLabels] *)

Section stringifyLabels_facts.
Context `{ExternalTypes}.

Lemma stringifyLabels_key (ts : TimeSeries) :
  (stringifyLabels ts).1 = labels_key (TimeSeries_Labels ts).
Proof.
  unfold stringifyLabels, labels_key.
  by destruct (stringifyLabels_slice (TimeSeries_Labels ts)).
Qed.

Lemma stringifyLabels_after (ts : TimeSeries) :
  (stringifyLabels ts).2 =
  mkTimeSeries (stringifyLabels_slice (TimeSeries_Labels ts)).2
               (TimeSeries_Samples ts).
Proof.
  unfold stringifyLabels.
  by destruct (stringifyLabels_slice (TimeSeries_Labels ts)).
Qed.

Lemma name_lt_le_sorted labels : Sorted name_lt labels → Sorted name_le labels.
Proof.
  induction 1 as [|a l Hs IH Hh]; constructor; [done|].
  destruct Hh; constructor. by apply label_less_true.
Qed.

(** C2 (amended): on label sets whose names hold no [=] and whose values
    hold no [,], the canonical key is injective: two such label sets that
    differ as sets of (name, value) pairs have different keys. *)
Theorem stringifyLabels_injective_separable (ts1 ts2 : TimeSeries) :
  Forall separable (TimeSeries_Labels ts1) →
  Forall separable (TimeSeries_Labels ts2) →
  ¬ (∀ l, l ∈ TimeSeries_Labels ts1 ↔ l ∈ TimeSeries_Labels ts2) →
  (stringifyLabels ts1).1 ≠ (stringifyLabels ts2).1.
Proof.
  intros H1 H2 Hdiff E. apply Hdiff. rewrite !stringifyLabels_key in E.
  apply labels_key_inj in E; [|done..].
  intros l. by rewrite E.
Qed.

(** C3 (amended): the key is the comma-joined [name=value] pairs of the
    labels in name-ascending order, with no trailing separator; and for two
    label sequences with pairwise distinct names that hold the same pairs
    in different orders the keys are equal. *)
Theorem stringifyLabels_order_independent :
  (∀ ts : TimeSeries, ∃ sorted,
     sorted ≡ₚ TimeSeries_Labels ts ∧ Sorted name_le sorted ∧
     (stringifyLabels ts).1 = join_pairs sorted) ∧
  (∀ ts1 ts2 : TimeSeries,
     NoDup (Label_Name <$> TimeSeries_Labels ts1) →
     TimeSeries_Labels ts1 ≡ₚ TimeSeries_Labels ts2 →
     (stringifyLabels ts1).1 = (stringifyLabels ts2).1).
Proof.
  split.
  - intros ts. exists (stringifyLabels_slice (TimeSeries_Labels ts)).2.
    split; [apply stringifyLabels_slice_perm|].
    split; [apply stringifyLabels_slice_sorted|].
    rewrite stringifyLabels_key. apply labels_key_join.
  - intros ts1 ts2 Hnd Hp. rewrite !stringifyLabels_key.
    by apply labels_key_perm.
Qed.

(** C9 (amended): computing the key leaves the samples of the TimeSeries
    alone and leaves its label sequence holding the same labels, but in
    name-ascending order: the slice is sorted in place. A TimeSeries with
    at most one label, or whose labels are already in strictly ascending
    name order, is the same after the call as before. The function is a
    function of its argument alone. *)
Theorem stringifyLabels_sorts_in_place (ts : TimeSeries) :
  TimeSeries_Samples (stringifyLabels ts).2 = TimeSeries_Samples ts ∧
  TimeSeries_Labels (stringifyLabels ts).2 ≡ₚ TimeSeries_Labels ts ∧
  Sorted name_le (TimeSeries_Labels (stringifyLabels ts).2) ∧
  ((length (TimeSeries_Labels ts) ≤ 1)%nat ∨ Sorted name_lt (TimeSeries_Labels ts) →
   (stringifyLabels ts).2 = ts).
Proof.
  rewrite stringifyLabels_after. simpl.
  split; [done|]. split; [apply stringifyLabels_slice_perm|].
  split; [apply stringifyLabels_slice_sorted|].
  intros Hcase. destruct ts as [labels samples]. simpl in *. f_equal.
  destruct Hcase as [Hlen|Hs].
  - unfold stringifyLabels_slice. simpl.
    destruct (decide (1 < length labels)); [lia|done].
  - by apply stringifyLabels_slice_id, name_lt_le_sorted.
Qed.
End stringifyLabels_facts.

(** C2, as stated, fails: the one label [a="b,c=d"] and the two labels
    [a="b"], [c="d"] differ as sets of pairs and have the same key
    [a=b,c=d]. *)
Lemma stringifyLabels_key_collision :
  ¬ (∀ l, l ∈ labels_one_long ↔ l ∈ labels_two_short) ∧
  (stringifyLabels (series_of labels_one_long)).1 =
  (stringifyLabels (series_of labels_two_short)).1.
Proof.
  split; [|reflexivity].
  intros Hall. destruct (Hall (mkLabel "a" "b,c=d")) as [Hin _].
  specialize (Hin ltac:(left)). revert Hin.
  apply (bool_decide_eq_false_1 _). reflexivity.
Qed.

Lemma stringifyLabels_injective_separable_witness :
  Forall separable labels_a_b ∧ Forall separable labels_two_short ∧
  (stringifyLabels (series_of labels_a_b)).1 ≠
  (stringifyLabels (series_of labels_two_short)).1.
Proof.
  assert (Forall separable labels_a_b) as H1 by (repeat constructor).
  assert (Forall separable labels_two_short) as H2 by (repeat constructor).
  split; [done|]. split; [done|].
  apply (stringifyLabels_injective_separable
           (series_of labels_a_b) (series_of labels_two_short) H1 H2).
  intros Hall. destruct (Hall (mkLabel "a" "2")) as [Hin _].
  specialize (Hin ltac:(left)). revert Hin.
  apply (bool_decide_eq_false_1 _). reflexivity.
Defined.

(** C3, as stated, fails on sequences that repeat a name: [a=1, a=2] and
    [a=2, a=1] hold the same pairs and keep their own order. *)
Lemma stringifyLabels_order_matters_on_repeated_name :
  labels_a1_a2 ≡ₚ labels_a2_a1 ∧
  (stringifyLabels (series_of labels_a1_a2)).1 = "a=1,a=2" ∧
  (stringifyLabels (series_of labels_a2_a1)).1 = "a=2,a=1".
Proof. split; [apply Permutation_swap|]. by split. Qed.

Lemma stringifyLabels_order_independent_witness :
  NoDup (Label_Name <$> labels_b_a) ∧ labels_b_a ≡ₚ labels_a_b ∧
  (stringifyLabels (series_of labels_b_a)).1 =
  (stringifyLabels (series_of labels_a_b)).1.
Proof.
  assert (NoDup (Label_Name <$> labels_b_a)) as Hnd.
  { apply (bool_decide_unpack _). vm_compute. exact I. }
  assert (labels_b_a ≡ₚ labels_a_b) as Hp by apply Permutation_swap.
  split; [done|]. split; [done|].
  exact (proj2 stringifyLabels_order_independent
           (series_of labels_b_a) (series_of labels_a_b) Hnd Hp).
Defined.

(** C9, as stated, fails: after the key of a TimeSeries with labels
    [b=1, a=2] is computed, its labels are [a=2, b=1]. *)
Lemma stringifyLabels_reorders_labels :
  TimeSeries_Labels (stringifyLabels (series_of labels_b_a)).2 = labels_a_b ∧
  (stringifyLabels (series_of labels_b_a)).2 ≠ series_of labels_b_a.
Proof. split; [reflexivity|]. intros E. by injection E. Qed.

Lemma stringifyLabels_sorts_in_place_witness :
  Sorted name_lt labels_a_b ∧
  (stringifyLabels (series_of labels_a_b)).2 = series_of labels_a_b.
Proof.
  assert (Sorted name_lt labels_a_b) as Hs by (repeat constructor).
  split; [done|].
  apply (stringifyLabels_sorts_in_place (series_of labels_a_b)). by right.
Defined.

(** ** Running the methods *)

Section run_facts.
Context `{ExternalFuns}.

Lemma run_bind {A B} (w : World) (p : prog A) (g : A → prog B) (m : Mem) :
  run w (p ≫= g) m =
  match run w p m with
  | (Returned a, m') => run w (g a) m'
  | (Panicked msg, m') => (Panicked msg, m')
  | (Deadlocked, m') => (Deadlocked, m')
  end.
Proof.
  unfold mbind, prog_bind. revert m.
  induction p as [a|msg|f k IH|f v k IH|k IH|k IH|ctx expr k IH|k IH];
    intros m; simpl; try done.
  - by destruct (mu_held m).
  - by destruct (mu_held m).
Qed.

Lemma run_toTimeSeries w r t m :
  run w (toTimeSeries r t) m =
  (Returned (newTimeSeries (Metric_Value r)
     (overlay (Metric_Labels r) (Name (object m)) (Labels (object m))) t), m).
Proof. reflexivity. Qed.

(** One turn of the loop on a rule whose lock is held. *)
Lemma run_Exec_loop_cons w rr r rest duplicates tss :
  run w (Exec_loop (r :: rest) duplicates tss) (mkMem rr true) =
  if decide (output_key rr r ∈ duplicates) then
    (Returned ([], Some (fmt_Errorf_w
       ("original metric " +:+ fmt_v_Metric r +:+
        "; resulting labels " +:+ strconv_Quote (output_key rr r))
       errDuplicate)),
     mkMem (set F_lastExecError (Some errDuplicate) rr) false)
  else
    run w (Exec_loop rest ({[output_key rr r]} ∪ duplicates)
                     (tss ++ [(output_series rr r).2])) (mkMem rr true).
Proof.
  unfold output_key, output_series. cbn [Exec_loop].
  rewrite run_bind, run_toTimeSeries. cbn [object Name Labels].
  destruct (stringifyLabels _) as [key ts]. cbn [fst snd].
  by destruct (decide (key ∈ duplicates)).
Qed.

(** The loop when no key repeats: every series is appended, in order, and
    the lock is released. *)
Lemma run_Exec_loop_distinct w rr qMetrics : ∀ duplicates tss,
  NoDup (output_key rr <$> qMetrics) →
  (∀ key, key ∈ output_key rr <$> qMetrics → key ∉ duplicates) →
  run w (Exec_loop qMetrics duplicates tss) (mkMem rr true) =
  (Returned (tss ++ ((λ r, (output_series rr r).2) <$> qMetrics), None),
   mkMem rr false).
Proof.
  induction qMetrics as [|r rest IH]; intros duplicates tss Hnd Hfresh.
  { simpl. by rewrite app_nil_r. }
  rewrite fmap_cons in *. rewrite run_Exec_loop_cons.
  apply NoDup_cons in Hnd as [Hkey Hnd].
  destruct (decide (output_key rr r ∈ duplicates)) as [Hin|_].
  { exfalso. apply (Hfresh (output_key rr r)); [left|done]. }
  rewrite IH; [by rewrite <- app_assoc|done|].
  intros k Hk. rewrite elem_of_union, elem_of_singleton.
  intros [->|Hd]; [done|]. apply (Hfresh k); [by right|done].
Qed.

(** The loop when a key repeats, or is already in [duplicates]: nothing
    is returned but the duplicate error, which is also recorded. *)
Lemma run_Exec_loop_duplicate w rr qMetrics : ∀ duplicates tss,
  ¬ NoDup (output_key rr <$> qMetrics) ∨
  (∃ key, key ∈ output_key rr <$> qMetrics ∧ key ∈ duplicates) →
  ∃ r, r ∈ qMetrics ∧
  run w (Exec_loop qMetrics duplicates tss) (mkMem rr true) =
  (Returned ([], Some (fmt_Errorf_w
     ("original metric " +:+ fmt_v_Metric r +:+
      "; resulting labels " +:+ strconv_Quote (output_key rr r))
     errDuplicate)),
   mkMem (set F_lastExecError (Some errDuplicate) rr) false).
Proof.
  induction qMetrics as [|r rest IH]; intros duplicates tss Hdup.
  { exfalso. destruct Hdup as [Hnd|(key & Hin & _)].
    - apply Hnd. constructor.
    - by apply elem_of_nil in Hin. }
  rewrite fmap_cons in Hdup. rewrite run_Exec_loop_cons.
  destruct (decide (output_key rr r ∈ duplicates)) as [Hin|Hout].
  { exists r. split; [left|done]. }
  destruct (IH ({[output_key rr r]} ∪ duplicates)
               (tss ++ [(output_series rr r).2])) as (r' & Hr' & Hrun).
  - destruct (decide (output_key rr r ∈ output_key rr <$> rest)) as [Hk|Hk].
    { right. exists (output_key rr r). split; [done|].
      by apply elem_of_union_l, elem_of_singleton_2. }
    destruct Hdup as [Hnd|(key & Hkey & Hd)].
    + left. intros Hnd'. apply Hnd. by constructor.
    + right. exists key. apply elem_of_cons in Hkey as [->|Hkey]; [done|].
      split; [done|]. by apply elem_of_union_r.
  - exists r'. split; [by right|done].
Qed.
Lemma output_series_recorded now err rr r :
  output_series (recorded now err rr) r = output_series rr r.
Proof. reflexivity. Qed.

Lemma output_key_recorded now err rr :
  output_key (recorded now err rr) = output_key rr.
Proof. reflexivity. Qed.

(** [Exec] with [series = true] on an unlocked rule, up to the loop. *)
Lemma run_Exec w ctx rr :
  run w (Exec ctx true) (mkMem rr false) =
  match respond w ctx (Expr rr) with
  | (_, Some e) =>
      (Returned ([], Some (fmt_Errorf_w
         ("failed to execute query " +:+ strconv_Quote (Expr rr)) e)),
       mkMem (recorded (wall_clock w) (Some e) rr) false)
  | (qMetrics, None) =>
      run w (Exec_loop qMetrics ∅ [])
        (mkMem (recorded (wall_clock w) None rr) true)
  end.
Proof.
  unfold Exec. cbn [negb]. rewrite run_bind. cbn [read run object get].
  rewrite run_bind. cbn [q_Query run].
  destruct (respond w ctx (Expr rr)) as [qMetrics [e|]]; reflexivity.
Qed.

(** A successful query whose output keys are pairwise different. *)
Lemma run_Exec_distinct w ctx rr qMetrics :
  respond w ctx (Expr rr) = (qMetrics, None) →
  NoDup (output_key rr <$> qMetrics) →
  run w (Exec ctx true) (mkMem rr false) =
  (Returned ((λ r, (output_series rr r).2) <$> qMetrics, None),
   mkMem (recorded (wall_clock w) None rr) false).
Proof.
  intros Hq Hnd. rewrite run_Exec, Hq.
  rewrite run_Exec_loop_distinct; [done|done|].
  intros key _. apply not_elem_of_empty.
Qed.

(** [Exec] never panics and never blocks on an unlocked rule: it always
    returns with the lock released, and either with a nil error, which it
    has also recorded, or with no series at all and an error, having
    recorded one. *)
Lemma Exec_all_or_nothing w ctx rr :
  ∃ tss err rr',
    run w (Exec ctx true) (mkMem rr false) =
      (Returned (tss, err), mkMem rr' false) ∧
    ((err = None ∧ lastExecError rr' = None) ∨
     (tss = [] ∧ is_Some err ∧ is_Some (lastExecError rr'))).
Proof.
  rewrite run_Exec. destruct (respond w ctx (Expr rr)) as [qMetrics [e|]].
  { eexists _, _, _. split; [done|]. right. by repeat split. }
  set (rr1 := recorded (wall_clock w) None rr).
  destruct (decide (NoDup (output_key rr1 <$> qMetrics))) as [Hnd|Hnd].
  - rewrite run_Exec_loop_distinct; [|done|].
    + eexists _, _, _. split; [done|]. by left.
    + intros key _. apply not_elem_of_empty.
  - destruct (run_Exec_loop_duplicate w rr1 qMetrics ∅ []) as (r & _ & ->);
      [by left|].
    eexists _, _, _. split; [done|]. right. by repeat split.
Qed.
End run_facts.

(** ** [toTimeSeries] *)

Lemma foldl_insert_union {X} (key val : X → string) (l : list X) :
  ∀ m : gmap string string,
  foldl (λ m x, <[key x := val x]> m) m l =
  list_to_map ((λ x, (key x, val x)) <$> reverse l) ∪ m.
Proof.
  induction l as [|x l IH]; intros m; simpl.
  { by rewrite (left_id_L ∅ (∪)). }
  rewrite IH, reverse_cons, fmap_app, list_to_map_app. simpl.
  rewrite <- (assoc_L (∪)). f_equal.
  by rewrite <- insert_union_l, (left_id_L ∅ (∪)).
Qed.

Lemma labels_of_metric_lookup mlabels k v :
  NoDup (Label_Name <$> mlabels) →
  labels_of_metric mlabels !! k = Some v ↔ mkLabel k v ∈ mlabels.
Proof.
  intros Hnd. unfold labels_of_metric.
  rewrite foldl_insert_union, (right_id_L ∅ (∪)).
  rewrite <- elem_of_list_to_map.
  - rewrite fmap_reverse, elem_of_reverse, list_elem_of_fmap. split.
    + intros ([k' v'] & [= -> ->] & Hin). done.
    + intros Hin. by exists (mkLabel k v).
  - rewrite <- list_fmap_compose, fmap_reverse, reverse_Permutation. done.
Qed.

(** Of two labels of the metric with one name, the later one stays. *)
Lemma labels_of_metric_snoc mlabels l :
  labels_of_metric (mlabels ++ [l]) =
  <[Label_Name l := Label_Value l]> (labels_of_metric mlabels).
Proof. unfold labels_of_metric. by rewrite foldl_snoc. Qed.

Lemma fmap_pair_eta {X Y} (l : list (X * Y)) : (λ x, (x.1, x.2)) <$> l = l.
Proof. induction l as [|[??] l IH]; [done|]. by rewrite fmap_cons, IH. Qed.

Section toTimeSeries_facts.
Context `{ExternalFuns}.

(** The static labels win over [__name__], which wins over the metric's
    labels, whatever the order in which the map of static labels is
    visited. *)
Lemma overlay_union mlabels name rrLabels :
  overlay mlabels name rrLabels =
  rrLabels ∪ <["__name__" := name]> (labels_of_metric mlabels).
Proof.
  unfold overlay. rewrite (foldl_insert_union fst snd). f_equal.
  rewrite fmap_pair_eta.
  rewrite <- (list_to_map_to_list rrLabels) at 2.
  apply list_to_map_proper.
  - rewrite reverse_Permutation, range_map_perm. apply NoDup_fst_map_to_list.
  - by rewrite reverse_Permutation, range_map_perm.
Qed.
Lemma newTimeSeries_labels value labels timestamp k v :
  mkLabel k v ∈ TimeSeries_Labels (newTimeSeries value labels timestamp) ↔
  labels !! k = Some v.
Proof.
  unfold newTimeSeries. cbn [TimeSeries_Labels].
  rewrite <- elem_of_map_to_list, <- range_map_perm, list_elem_of_fmap. split.
  - intros ([k' v'] & [= -> ->] & Hin). done.
  - intros Hin. by exists (k, v).
Qed.

Lemma newTimeSeries_names value labels timestamp :
  NoDup (Label_Name <$> TimeSeries_Labels (newTimeSeries value labels timestamp)).
Proof.
  unfold newTimeSeries. cbn [TimeSeries_Labels].
  rewrite <- list_fmap_compose.
  change (Label_Name ∘ _) with (fst : string * string → string).
  rewrite range_map_perm. apply NoDup_fst_map_to_list.
Qed.

(** C4: the labels of the TimeSeries built for a metric are the entries of
    the map that starts from the metric's labels, has [__name__] set to the
    rule's [Name], and is then overlaid with the rule's static [Labels]:
    a static label decides the value of its name (also of [__name__], and
    also when the metric has a label of that name), [__name__] is the
    rule's [Name] otherwise, and any other name has the metric's value. *)
Theorem toTimeSeries_labels (w : World) (m : Mem) (r : Metric) (timestamp : Time) :
  ∃ ts,
    run w (toTimeSeries r timestamp) m = (Returned ts, m) ∧
    TimeSeries_Samples ts = [mkSample (Metric_Value r) timestamp] ∧
    NoDup (Label_Name <$> TimeSeries_Labels ts) ∧
    (∀ k v, mkLabel k v ∈ TimeSeries_Labels ts ↔
       (Labels (object m) ∪
        <["__name__" := Name (object m)]> (labels_of_metric (Metric_Labels r)))
         !! k = Some v) ∧
    (∀ k c, Labels (object m) !! k = Some c →
       ∀ v, mkLabel k v ∈ TimeSeries_Labels ts ↔ v = c) ∧
    (Labels (object m) !! "__name__" = None →
       ∀ v, mkLabel "__name__" v ∈ TimeSeries_Labels ts ↔ v = Name (object m)) ∧
    (∀ k, Labels (object m) !! k = None → k ≠ "__name__" →
       ∀ v, mkLabel k v ∈ TimeSeries_Labels ts ↔
            labels_of_metric (Metric_Labels r) !! k = Some v) ∧
    (NoDup (Label_Name <$> Metric_Labels r) →
       ∀ k v, labels_of_metric (Metric_Labels r) !! k = Some v ↔
              mkLabel k v ∈ Metric_Labels r).
Proof.
  eexists. split; [apply run_toTimeSeries|]. split; [done|].
  split; [apply newTimeSeries_names|].
  assert (∀ k v,
    mkLabel k v ∈ TimeSeries_Labels (newTimeSeries (Metric_Value r)
      (overlay (Metric_Labels r) (Name (object m)) (Labels (object m)))
      timestamp) ↔
    (Labels (object m) ∪
     <["__name__" := Name (object m)]> (labels_of_metric (Metric_Labels r)))
      !! k = Some v) as Hl.
  { intros k v. by rewrite newTimeSeries_labels, overlay_union. }
  split; [exact Hl|]. split; [|split; [|split]].
  - intros k c Hc v. rewrite Hl, (lookup_union_Some_l _ _ _ _ Hc).
    split; [by intros [= ->]|by intros ->].
  - intros Hn v. rewrite Hl, lookup_union_r, lookup_insert_eq by done.
    split; [by intros [= ->]|by intros ->].
  - intros k Hn Hk v. by rewrite Hl, lookup_union_r, lookup_insert_ne.
  - intros Hnd k v. by apply labels_of_metric_lookup.
Qed.

(** The series [Exec] appends holds the same labels: [stringifyLabels]
    has only put them in name order. *)
Lemma output_series_labels rr r k v :
  mkLabel k v ∈ TimeSeries_Labels (output_series rr r).2 ↔
  (Labels rr ∪ <["__name__" := Name rr]> (labels_of_metric (Metric_Labels r)))
    !! k = Some v.
Proof.
  unfold output_series. rewrite stringifyLabels_after. cbn [TimeSeries_Labels].
  rewrite stringifyLabels_slice_perm.
  by rewrite newTimeSeries_labels, overlay_union.
Qed.

(** Its labels are in name order and no name repeats: the series does
    not depend on the order in which Go visited the maps. *)
Lemma output_series_sorted rr r :
  Sorted name_le (TimeSeries_Labels (output_series rr r).2) ∧
  NoDup (Label_Name <$> TimeSeries_Labels (output_series rr r).2).
Proof.
  unfold output_series. rewrite stringifyLabels_after. cbn [TimeSeries_Labels].
  split; [apply stringifyLabels_slice_sorted|].
  rewrite stringifyLabels_slice_perm. apply newTimeSeries_names.
Qed.

Lemma output_series_determined rr r (labels : list Label) :
  Sorted name_le labels →
  (∀ l, l ∈ labels ↔ l ∈ TimeSeries_Labels (output_series rr r).2) →
  NoDup labels →
  labels = TimeSeries_Labels (output_series rr r).2.
Proof.
  intros Hs Hin Hnd. destruct (output_series_sorted rr r) as [Hs' Hnd'].
  symmetry. apply name_sorted_unique; [done| |done..].
  apply NoDup_Permutation; [by eapply NoDup_fmap_1|done|].
  intros l. by rewrite Hin.
Qed.
End toTimeSeries_facts.

Lemma toTimeSeries_labels_witness :
  Labels rule_up_count !! "env" = Some "prod" ∧
  mkLabel "env" "dev" ∈ Metric_Labels metric_a_dev ∧
  ∃ ts,
    run world_ok (toTimeSeries metric_a_dev (time_Unix 1700000000 0))
        (mkMem rule_up_count false) = (Returned ts, mkMem rule_up_count false) ∧
    ∀ v, mkLabel "env" v ∈ TimeSeries_Labels ts ↔ v = "prod".
Proof.
  assert (Labels rule_up_count !! "env" = Some "prod") as Henv
    by (vm_compute; reflexivity).
  split; [exact Henv|]. split; [right; left|].
  destruct (toTimeSeries_labels world_ok (mkMem rule_up_count false)
              metric_a_dev (time_Unix 1700000000 0))
    as (ts & Hrun & _ & _ & _ & Hstatic & _).
  exists ts. split; [exact Hrun|]. exact (Hstatic "env" "prod" Henv).
Defined.

(** ** [Exec] *)

Section Exec_facts.
Context `{ExternalFuns}.

(** C5: [Exec] with [series = false] returns an empty sequence and a nil
    error, performs no effect at all (no query, no lock, no field access)
    and leaves the rule, [lastExecTime] and [lastExecError] included, as it
    was. *)
Theorem Exec_without_series (w : World) (ctx : context_Context) (m : Mem) :
  run w (Exec ctx false) m = (Returned ([], None), m) ∧
  events w (Exec ctx false) m = [].
Proof. by split. Qed.

(** C1: when the query succeeds and two of the output series have the same
    canonical key, [Exec] returns no series and an error wrapping
    [errDuplicate], and [lastExecError] is [errDuplicate] afterwards, in
    place of the nil the successful query had recorded. *)
Theorem Exec_duplicate_series (w : World) (ctx : context_Context)
    (rr : RecordingRule) (qMetrics : list Metric) (i j : nat) (key : string) :
  respond w ctx (Expr rr) = (qMetrics, None) →
  i ≠ j →
  (output_key rr <$> qMetrics) !! i = Some key →
  (output_key rr <$> qMetrics) !! j = Some key →
  ∃ err,
    run w (Exec ctx true) (mkMem rr false) =
      (Returned ([], Some err),
       mkMem (recorded (wall_clock w) (Some errDuplicate) rr) false) ∧
    Unwrap err = Some errDuplicate ∧
    errors_Is err errDuplicate = true.
Proof.
  intros Hq Hij Hi Hj. rewrite run_Exec, Hq.
  destruct (run_Exec_loop_duplicate w (recorded (wall_clock w) None rr)
              qMetrics ∅ []) as (r & _ & ->).
  { left. rewrite output_key_recorded. intros Hnd.
    apply Hij. by eapply NoDup_lookup. }
  eexists. split; [reflexivity|]. by split.
Qed.

(** C10: when the query succeeds with [n] metrics whose output series have
    pairwise different keys, [Exec] returns [n] series in the order of the
    metrics, the [i]-th built from the [i]-th metric and carrying its value
    at the instant [Timestamp] whole seconds after the epoch, with a nil
    error, and [lastExecError] is nil afterwards; no metrics give no
    series. *)
Theorem Exec_distinct_series (w : World) (ctx : context_Context)
    (rr : RecordingRule) (qMetrics : list Metric) :
  respond w ctx (Expr rr) = (qMetrics, None) →
  NoDup (output_key rr <$> qMetrics) →
  ∃ tss,
    run w (Exec ctx true) (mkMem rr false) =
      (Returned (tss, None), mkMem (recorded (wall_clock w) None rr) false) ∧
    lastExecError (recorded (wall_clock w) None rr) = None ∧
    tss = (λ r, (output_series rr r).2) <$> qMetrics ∧
    length tss = length qMetrics ∧
    (∀ i r, qMetrics !! i = Some r →
       ∃ ts, tss !! i = Some ts ∧
         TimeSeries_Samples ts =
           [mkSample (Metric_Value r) (mkTime (Metric_Timestamp r) 0)] ∧
         (∀ k v, mkLabel k v ∈ TimeSeries_Labels ts ↔
            (Labels rr ∪
             <["__name__" := Name rr]> (labels_of_metric (Metric_Labels r)))
              !! k = Some v)) ∧
    (qMetrics = [] → tss = []).
Proof.
  intros Hq Hnd. exists ((λ r, (output_series rr r).2) <$> qMetrics).
  split; [by apply run_Exec_distinct|].
  split; [done|]. split; [done|]. split; [apply length_fmap|].
  split; [|by intros ->].
  intros i r Hi. exists (output_series rr r).2.
  rewrite list_lookup_fmap, Hi. split; [done|].
  split; [|apply output_series_labels].
  unfold output_series. by rewrite stringifyLabels_after.
Qed.

(** C7: a cycle whose query fails records the error and returns it wrapped
    in a message naming the expression; a following cycle whose query
    succeeds without key collision leaves [lastExecError] nil. *)
Theorem Exec_error_does_not_latch (w1 w2 : World) (ctx1 ctx2 : context_Context)
    (rr : RecordingRule) (qMetrics1 qMetrics2 : list Metric) (e : error) :
  respond w1 ctx1 (Expr rr) = (qMetrics1, Some e) →
  respond w2 ctx2 (Expr rr) = (qMetrics2, None) →
  NoDup (output_key rr <$> qMetrics2) →
  ∃ rr1 tss rr2,
    run w1 (Exec ctx1 true) (mkMem rr false) =
      (Returned ([], Some (fmt_Errorf_w
         ("failed to execute query " +:+ strconv_Quote (Expr rr)) e)),
       mkMem rr1 false) ∧
    lastExecError rr1 = Some e ∧
    run w2 (Exec ctx2 true) (mkMem rr1 false) =
      (Returned (tss, None), mkMem rr2 false) ∧
    lastExecError rr2 = None.
Proof.
  intros Hq1 Hq2 Hnd.
  set (rr1 := recorded (wall_clock w1) (Some e) rr).
  exists rr1, ((λ r, (output_series rr1 r).2) <$> qMetrics2),
    (recorded (wall_clock w2) None rr1).
  split; [by rewrite run_Exec, Hq1|]. split; [done|].
  split; [by apply run_Exec_distinct|done].
Qed.
End Exec_facts.

Lemma Exec_duplicate_series_witness :
  respond world_dup () (Expr rule_up_count) = ([metric_a; metric_a_dev], None) ∧
  (output_key rule_up_count <$> [metric_a; metric_a_dev]) !! 0 =
    Some "__name__=up_count,env=prod,job=a" ∧
  (output_key rule_up_count <$> [metric_a; metric_a_dev]) !! 1 =
    Some "__name__=up_count,env=prod,job=a" ∧
  ∃ err,
    run world_dup (Exec () true) (mkMem rule_up_count false) =
      (Returned ([], Some err),
       mkMem (recorded (wall_clock world_dup) (Some errDuplicate) rule_up_count)
             false) ∧
    Unwrap err = Some errDuplicate ∧
    errors_Is err errDuplicate = true.
Proof.
  assert ((output_key rule_up_count <$> [metric_a; metric_a_dev]) !! 0 =
          Some "__name__=up_count,env=prod,job=a") as H0 by (vm_compute; reflexivity).
  assert ((output_key rule_up_count <$> [metric_a; metric_a_dev]) !! 1 =
          Some "__name__=up_count,env=prod,job=a") as H1 by (vm_compute; reflexivity).
  split; [reflexivity|]. split; [exact H0|]. split; [exact H1|].
  apply (Exec_duplicate_series world_dup () rule_up_count
           [metric_a; metric_a_dev] 0 1 _ eq_refl ltac:(lia) H0 H1).
Defined.

Lemma Exec_distinct_series_witness :
  respond world_ok () (Expr rule_up_count) = ([metric_a; metric_b], None) ∧
  NoDup (output_key rule_up_count <$> [metric_a; metric_b]) ∧
  ∃ tss,
    run world_ok (Exec () true) (mkMem rule_up_count false) =
      (Returned (tss, None),
       mkMem (recorded (wall_clock world_ok) None rule_up_count) false) ∧
    length tss = 2 ∧
    (∀ i r, [metric_a; metric_b] !! i = Some r →
       ∃ ts, tss !! i = Some ts ∧
         TimeSeries_Samples ts =
           [mkSample (Metric_Value r) (mkTime (Metric_Timestamp r) 0)] ∧
         (∀ k v, mkLabel k v ∈ TimeSeries_Labels ts ↔
            (Labels rule_up_count ∪
             <["__name__" := Name rule_up_count]>
               (labels_of_metric (Metric_Labels r))) !! k = Some v)).
Proof.
  assert (NoDup (output_key rule_up_count <$> [metric_a; metric_b])) as Hnd.
  { apply (bool_decide_unpack _). vm_compute. exact I. }
  split; [reflexivity|]. split; [exact Hnd|].
  destruct (Exec_distinct_series world_ok () rule_up_count
              [metric_a; metric_b] eq_refl Hnd)
    as (tss & Hrun & _ & _ & Hlen & Hith & _).
  exists tss. split; [exact Hrun|]. split; [exact Hlen|exact Hith].
Defined.

(** The scenario of the rule specification: [up_count] with [env=prod]
    over [job=a] (value 1) and [job=b] (value 2). *)
Example Exec_up_count :
  run world_ok (Exec () true) (mkMem rule_up_count false) =
  (Returned
     ([mkTimeSeries [mkLabel "__name__" "up_count"; mkLabel "env" "prod";
                     mkLabel "job" "a"]
                    [mkSample 1%Z (mkTime 1700000000 0)];
       mkTimeSeries [mkLabel "__name__" "up_count"; mkLabel "env" "prod";
                     mkLabel "job" "b"]
                    [mkSample 2%Z (mkTime 1700000000 0)]], None),
   mkMem (recorded (mkTime 1700000005 0) None rule_up_count) false).
Proof. vm_compute. reflexivity. Qed.

Lemma Exec_error_does_not_latch_witness :
  respond world_down () (Expr rule_up_count) =
    ([], Some (errorString "connection refused")) ∧
  respond world_ok () (Expr rule_up_count) = ([metric_a; metric_b], None) ∧
  NoDup (output_key rule_up_count <$> [metric_a; metric_b]) ∧
  ∃ rr1 tss rr2,
    run world_down (Exec () true) (mkMem rule_up_count false) =
      (Returned ([], Some (fmt_Errorf_w
         ("failed to execute query " +:+ strconv_Quote (Expr rule_up_count))
         (errorString "connection refused"))),
       mkMem rr1 false) ∧
    lastExecError rr1 = Some (errorString "connection refused") ∧
    run world_ok (Exec () true) (mkMem rr1 false) =
      (Returned (tss, None), mkMem rr2 false) ∧
    lastExecError rr2 = None.
Proof.
  assert (NoDup (output_key rule_up_count <$> [metric_a; metric_b])) as Hnd.
  { apply (bool_decide_unpack _). vm_compute. exact I. }
  split; [reflexivity|]. split; [reflexivity|]. split; [exact Hnd|].
  exact (Exec_error_does_not_latch world_down world_ok () () rule_up_count
           [] [metric_a; metric_b] (errorString "connection refused")
           eq_refl eq_refl Hnd).
Defined.

(** ** [UpdateWith] and [RuleAPI] *)

Section UpdateWith_facts.
Context `{ExternalFuns}.

(** [RuleAPI] on a rule nobody else is writing to returns its snapshot
    and changes nothing. *)
Lemma run_RuleAPI w m : run w RuleAPI m = (Returned (snapshot (object m)), m).
Proof.
  unfold RuleAPI, snapshot. rewrite run_bind. cbn [read run get].
  rewrite run_bind. destruct (lastExecError (object m)) as [err|] eqn:E.
  - rewrite run_bind. cbn [read run get]. rewrite E. reflexivity.
  - reflexivity.
Qed.

(** C6: [UpdateWith] given a rule that is not a [*RecordingRule] returns an
    error and changes nothing; given a [*RecordingRule] it returns nil and
    writes [Expr] and [Labels] only, so that the snapshots [RuleAPI] takes
    before and after agree on ID, GroupID, Name, Type, LastExec and
    LastError and the later one shows the new Expression and Labels. *)
Theorem UpdateWith_copies_config (w : World) (m : Mem) :
  (∀ o, run w (UpdateWith (Rule_other o)) m =
     (Returned (Some (errorString
        ("BUG: attempt to update recroding rule with wrong type " +:+
         fmt_gosyntax o))), m)) ∧
  (∀ nr, ∃ rr',
     run w (UpdateWith (Rule_RecordingRule nr)) m =
       (Returned None, mkMem rr' (mu_held m)) ∧
     Expr rr' = Expr nr ∧ Labels rr' = Labels nr ∧
     RuleID rr' = RuleID (object m) ∧ GroupID rr' = GroupID (object m) ∧
     Name rr' = Name (object m) ∧ Type_ rr' = Type_ (object m) ∧
     lastExecTime rr' = lastExecTime (object m) ∧
     lastExecError rr' = lastExecError (object m) ∧
     ∃ before after,
       run w RuleAPI m = (Returned before, m) ∧
       run w RuleAPI (mkMem rr' (mu_held m)) =
         (Returned after, mkMem rr' (mu_held m)) ∧
       API_ID after = API_ID before ∧
       API_GroupID after = API_GroupID before ∧
       API_Name after = API_Name before ∧
       API_Type after = API_Type before ∧
       API_LastExec after = API_LastExec before ∧
       API_LastError after = API_LastError before ∧
       API_Expression after = Expr nr ∧
       API_Labels after = Labels nr).
Proof.
  split.
  - done.
  - intros nr. eexists. split; [reflexivity|].
    repeat (split; [reflexivity|]).
    eexists _, _. split; [apply run_RuleAPI|]. split; [apply run_RuleAPI|].
    by repeat split.
Qed.
End UpdateWith_facts.

(** ** The lock *)

Section lock_facts.
Context `{ExternalFuns}.

Lemma events_bind {A B} (w : World) (p : prog A) (g : A → prog B) (m : Mem) :
  events w (p ≫= g) m =
  events w p m ++
  match run w p m with
  | (Returned a, m') => events w (g a) m'
  | _ => []
  end.
Proof.
  unfold mbind, prog_bind. revert m.
  induction p as [a|msg|f k IH|f v k IH|k IH|k IH|ctx expr k IH|k IH];
    intros m; simpl; try done; try (by f_equal).
  - destruct (mu_held m); [done|]. simpl. by f_equal.
  - destruct (mu_held m); [|done]. simpl. by f_equal.
Qed.

(** One goroutine scheduled alone takes the steps of [run]. *)
Lemma interleave_alone {A B} (w : World) (p : prog A) (q : prog B) :
  ∀ m a m', run w p m = (Returned a, m') →
  ∃ n, interleave w (replicate n true) p q m = (Ret a, q, m').
Proof.
  induction p as [a0|msg|f k IH|f v k IH|k IH|k IH|ctx expr k IH|k IH];
    intros m a m' Hrun; simpl in Hrun.
  - exists 0. by simplify_eq.
  - done.
  - destruct (IH _ _ _ _ Hrun) as [n Hn]. by exists (S n).
  - destruct (IH _ _ _ Hrun) as [n Hn]. by exists (S n).
  - destruct (mu_held m) eqn:E; [done|].
    destruct (IH _ _ _ Hrun) as [n Hn]. exists (S n). simpl. by rewrite E.
  - destruct (mu_held m) eqn:E; [|done].
    destruct (IH _ _ _ Hrun) as [n Hn]. exists (S n). simpl. by rewrite E.
  - destruct (IH _ _ _ _ Hrun) as [n Hn]. by exists (S n).
  - destruct (IH _ _ _ _ Hrun) as [n Hn]. by exists (S n).
Qed.

Lemma events_Exec_loop_guarded w rr qMetrics : ∀ duplicates tss,
  guarded true (events w (Exec_loop qMetrics duplicates tss) (mkMem rr true)) = true.
Proof.
  induction qMetrics as [|r rest IH]; intros duplicates tss; [done|].
  cbn [Exec_loop]. rewrite events_bind, run_toTimeSeries.
  change (events w (toTimeSeries _ _) _) with [EvRead F_Name; EvRead F_Labels].
  cbn [app guarded is_status negb orb andb object].
  destruct (stringifyLabels _) as [key ts].
  destruct (decide (key ∈ duplicates)); [done|]. apply IH.
Qed.

(** [Exec] touches the status fields with the lock held only, and so
    does the gauge callback. *)
Lemma Exec_guarded w ctx series rr :
  guarded false (events w (Exec ctx series) (mkMem rr false)) = true.
Proof.
  destruct series; [|done]. unfold Exec. cbn [negb].
  rewrite events_bind. cbn [read events run get object app guarded is_status negb orb andb].
  rewrite events_bind. cbn [q_Query events run app guarded].
  destruct (respond w ctx (Expr rr)) as [qMetrics [e|]].
  - reflexivity.
  - cbn. apply events_Exec_loop_guarded.
Qed.

Lemma errors_gauge_guarded w rr :
  guarded false (events w errors_gauge (mkMem rr false)) = true.
Proof.
  unfold errors_gauge. cbn. by destruct (lastExecError rr).
Qed.

(** [RuleAPI] never takes the lock: it reads [lastExecError] and
    [lastExecTime] unguarded. *)
Lemma RuleAPI_unguarded w m :
  (EvLock ∉ events w RuleAPI m) ∧
  (EvRead F_lastExecError ∈ events w RuleAPI m) ∧
  (EvRead F_lastExecTime ∈ events w RuleAPI m) ∧
  guarded false (events w RuleAPI m) = false.
Proof.
  unfold RuleAPI. cbn.
  destruct (lastExecError (object m)) as [err|] eqn:E; cbn; rewrite ?E; cbn;
    (split; [|split; [|split]]);
    first [reflexivity | apply (bool_decide_unpack _); vm_compute; exact I].
Qed.

(** C8 fails on the code: with [RuleAPI] running next to a cycle of
    [Exec] whose query fails on a rule that was healthy, there is a schedule
    under which the snapshot shows the time of the new cycle next to the
    empty error of the old one, a pair that neither the rule before the
    cycle nor the rule after it holds. *)
Theorem RuleAPI_torn_snapshot (w : World) (ctx : context_Context) (rr : RecordingRule)
    (qMetrics : list Metric) (e : error) :
  lastExecError rr = None →
  lastExecTime rr ≠ wall_clock w →
  Error e ≠ "" →
  respond w ctx (Expr rr) = (qMetrics, Some e) →
  ∃ sched snap res,
    interleave w sched RuleAPI (Exec ctx true) (mkMem rr false) =
      (Ret snap, Ret res, mkMem (recorded (wall_clock w) (Some e) rr) false) ∧
    API_LastExec snap = wall_clock w ∧
    API_LastError snap = "" ∧
    snap ≠ snapshot rr ∧
    snap ≠ snapshot (recorded (wall_clock w) (Some e) rr).
Proof.
  intros Hn Ht He Hq.
  exists ([true] ++ replicate 8 false ++ replicate 7 true). eexists _, _.
  split.
  { cbn [app replicate interleave]. unfold RuleAPI, Exec.
    cbn. rewrite Hn. cbn. rewrite Hq. cbn. reflexivity. }
  cbn [API_LastExec API_LastError]. split; [done|]. split; [done|].
  unfold snapshot. rewrite Hn. cbn. split.
  - intros [= Heq]. by apply Ht.
  - intros [= Heq]. by apply He.
Qed.

(** Under another schedule the second read of [lastExecError] in
    [RuleAPI] finds nil where the first found an error, and the call of
    [Error] on it panics. *)
Lemma RuleAPI_nil_dereference (w : World) (ctx : context_Context) (rr : RecordingRule)
    (e0 : error) :
  lastExecError rr = Some e0 →
  respond w ctx (Expr rr) = ([], None) →
  ∃ sched res m',
    interleave w sched RuleAPI (Exec ctx true) (mkMem rr false) =
      (Panic "invalid memory address or nil pointer dereference", Ret res, m').
Proof.
  intros Hn Hq.
  exists ([true] ++ replicate 7 false ++ [true]). eexists _, _.
  cbn [app replicate interleave]. unfold RuleAPI, Exec.
  cbn. rewrite Hn. cbn. rewrite Hq. cbn. reflexivity.
Qed.
End lock_facts.

Lemma RuleAPI_torn_snapshot_witness :
  ∃ sched snap res,
    interleave world_down sched RuleAPI (Exec () true) (mkMem rule_up_count false) =
      (Ret snap, Ret res,
       mkMem (recorded (wall_clock world_down)
                (Some (errorString "connection refused")) rule_up_count) false) ∧
    API_LastExec snap = wall_clock world_down ∧
    API_LastError snap = "" ∧
    snap ≠ snapshot rule_up_count ∧
    snap ≠ snapshot (recorded (wall_clock world_down)
                       (Some (errorString "connection refused")) rule_up_count).
Proof.
  apply (RuleAPI_torn_snapshot world_down () rule_up_count []
           (errorString "connection refused")).
  - reflexivity.
  - discriminate.
  - discriminate.
  - reflexivity.
Defined.

(** * Further properties of recording.go *)

(** ** Methods that keep the lock discipline are atomic *)

Section atomicity.
Context `{ExternalFuns}.

Lemma get_set_config f g v rr :
  is_status f = true → is_status g = false → get g (set f v rr) = get g rr.
Proof. by destruct f, g. Qed.

Lemma same_config_refl rr : same_config rr rr.
Proof. by intros f _. Qed.

Lemma same_config_set f v rr rr0 :
  is_status f = true → same_config rr rr0 → same_config (set f v rr) rr0.
Proof. intros Hf Hc g Hg. rewrite get_set_config by done. by apply Hc. Qed.

Lemma prelude_of_start {A} w m0 (p0 : prog A) :
  disciplined p0 → prelude_of w m0 p0 p0.
Proof. by split. Qed.

(** A step of a method that has not locked yet either leaves the memory
    alone and stays in the prelude, or takes the lock. *)
Lemma prelude_step {A} w m0 (p0 p p' : prog A) m m' :
  prelude_of w m0 p0 p → same_config (object m) (object m0) →
  step w p m = Some (p', m') →
  (m' = m ∧ prelude_of w m0 p0 p') ∨
  (mu_held m = false ∧ m' = mkMem (object m) true ∧ critical p' ∧
   p = Lock p').
Proof.
  intros [Hd Hrun] Hc Hstep. destruct Hd as [a|f k Hf Hk|ctx expr k Hk|k Hk];
    simpl in Hstep.
  - done.
  - left. simplify_eq. split; [done|]. split; [apply Hk|].
    intros m1 Hc1 Hu. rewrite <- Hrun by done. simpl.
    by rewrite (Hc f Hf), <- (Hc1 f Hf).
  - left. simplify_eq. split; [done|]. split; [apply Hk|].
    intros m1 Hc1 Hu. by rewrite <- Hrun.
  - right. destruct (mu_held m) eqn:E; [done|]. by simplify_eq.
Qed.

(** A step inside a critical section keeps the configuration and the
    result the section will return. *)
Lemma critical_step {A} w (p p' : prog A) m m' :
  critical p → mu_held m = true → step w p m = Some (p', m') →
  run w p' m' = run w p m ∧ same_config (object m') (object m) ∧
  ((mu_held m' = true ∧ critical p') ∨
   (∃ a, p = Unlock (Ret a) ∧ p' = Ret a ∧ m' = mkMem (object m) false)).
Proof.
  intros Hcr Hheld Hstep. destruct Hcr as [a|f k Hk|f v k Hf Hk|k Hk];
    simpl in Hstep; rewrite ?Hheld in Hstep; simplify_eq; simpl;
    rewrite ?Hheld.
  - split; [done|]. split; [apply same_config_refl|]. right. by exists a.
  - split; [done|]. split; [apply same_config_refl|]. left. auto.
  - split; [done|]. split; [by apply same_config_set, same_config_refl|].
    left. auto.
  - split; [done|]. split; [apply same_config_refl|]. left. auto.
Qed.

Lemma same_config_trans rr1 rr2 rr3 :
  same_config rr1 rr2 → same_config rr2 rr3 → same_config rr1 rr3.
Proof. intros H12 H23 f Hf. by rewrite (H12 f Hf), (H23 f Hf). Qed.

(** The method that locked first takes a step. *)
Lemma first_then_step_first {A B} w m0 (p0 : prog A) (q0 : prog B) p q m p' m' :
  mu_held m0 = false →
  first_then w m0 p0 q0 p q m → step w p m = Some (p', m') →
  first_then w m0 p0 q0 p' q m'.
Proof.
  intros Hm0 Hft Hstep. destruct Hft as [p q Hp Hq|p q m Hh Hc Hcr Hrun Hq| | |];
    try done.
  - destruct (prelude_step w m0 p0 p p' m0 m' Hp (same_config_refl _) Hstep)
      as [[-> Hp']|(_ & -> & Hcr & ->)].
    + by constructor.
    + apply ft_crit; [done|apply same_config_refl|done| |done].
      destruct Hp as [_ Hrun]. rewrite <- (Hrun m0 (same_config_refl _) Hm0).
      simpl. by rewrite Hm0.
  - destruct (critical_step w p p' m m' Hcr Hh Hstep)
      as (Hrun' & Hc' & [[Hh' Hcr']|(a & -> & -> & ->)]).
    + apply ft_crit; [done|by eapply same_config_trans|done|congruence|done].
    + apply ft_done; [|done|done|done].
      rewrite <- Hrun. simpl. by rewrite Hh.
Qed.

(** The other method takes a step: it stays second, or, when nobody had
    locked yet, it locks and becomes the first. *)
Lemma first_then_step_second {A B} w m0 (p0 : prog A) (q0 : prog B) p q m q' m' :
  mu_held m0 = false →
  first_then w m0 p0 q0 p q m → step w q m = Some (q', m') →
  first_then w m0 p0 q0 p q' m' ∨ first_then w m0 q0 p0 q' p m'.
Proof.
  intros Hm0 Hft Hstep.
  destruct Hft as [p q Hp Hq|p q m Hh Hc Hcr Hrun Hq|a q m Hrun Hh Hc Hq
                  |a m1 q m Hrun Hh Hcr Hrunq|]; try done.
  - destruct (prelude_step w m0 q0 q q' m0 m' Hq (same_config_refl _) Hstep)
      as [[-> Hq']|(_ & -> & Hcr & ->)].
    + left. by constructor.
    + right. apply ft_crit; [done|apply same_config_refl|done| |done].
      destruct Hq as [_ Hrun]. rewrite <- (Hrun m0 (same_config_refl _) Hm0).
      simpl. by rewrite Hm0.
  - left. destruct (prelude_step w m0 q0 q q' m m' Hq Hc Hstep)
      as [[-> Hq']|(Hfree & _)]; [|congruence].
    by apply ft_crit.
  - left. destruct (prelude_step w m0 q0 q q' m m' Hq Hc Hstep)
      as [[-> Hq']|(_ & -> & Hcr & ->)].
    + by apply ft_done.
    + eapply ft_done_crit; [exact Hrun|done|done|].
      destruct Hq as [_ Hrunq]. rewrite <- (Hrunq m Hc Hh). simpl.
      by rewrite Hh.
  - left. destruct (critical_step w q q' m m' Hcr Hh Hstep)
      as (Hrun' & Hc' & [[Hh' Hcr']|(b & -> & -> & ->)]).
    + eapply ft_done_crit; [exact Hrun|done|done|congruence].
    + eapply ft_both; [exact Hrun|]. rewrite <- Hrunq. simpl. by rewrite Hh.
Qed.

(** When both have returned, the results and the memory are those of the
    first run to its end followed by the second. *)
Lemma first_then_returned {A B} w m0 (p0 : prog A) (q0 : prog B) a b m :
  mu_held m0 = false →
  first_then w m0 p0 q0 (Ret a) (Ret b) m →
  ∃ m1, run w p0 m0 = (Returned a, m1) ∧ run w q0 m1 = (Returned b, m).
Proof.
  intros Hm0 Hft.
  inversion Hft as [p q Hp Hq|p q m' Hh Hc Hcr Hrun Hq
    |a' q m' Hrun Hh Hc Hq|a' m1 q m' Hrun Hh Hcr Hrunq|a' b' m1 m' Hr1 Hr2];
    simplify_eq.
  - destruct Hp as [_ Hp], Hq as [_ Hq]. exists m. split.
    + by rewrite <- (Hp m (same_config_refl _) Hm0).
    + by rewrite <- (Hq m (same_config_refl _) Hm0).
  - inversion Hcr.
  - exists m. split; [done|]. destruct Hq as [_ Hq]. by rewrite <- Hq.
  - inversion Hcr.
  - by exists m1.
Qed.

(** Whatever the schedule, two disciplined methods started on an unlocked
    rule stay in one of the two orders. *)
Lemma interleave_first_then {A B} w m0 (p0 : prog A) (q0 : prog B) sched :
  mu_held m0 = false → ∀ p q m,
  first_then w m0 p0 q0 p q m ∨ first_then w m0 q0 p0 q p m →
  first_then w m0 p0 q0 (interleave w sched p q m).1.1
    (interleave w sched p q m).1.2 (interleave w sched p q m).2 ∨
  first_then w m0 q0 p0 (interleave w sched p q m).1.2
    (interleave w sched p q m).1.1 (interleave w sched p q m).2.
Proof.
  intros Hm0. induction sched as [|[] sched IH]; intros p q m Hinv; [done|..];
    simpl.
  - destruct (step w p m) as [[p' m']|] eqn:Hstep; [|by apply IH].
    apply IH. destruct Hinv as [Hft|Hft].
    + left. by eapply first_then_step_first.
    + destruct (first_then_step_second w m0 q0 p0 q p m p' m' Hm0 Hft Hstep);
        auto.
  - destruct (step w q m) as [[q' m']|] eqn:Hstep; [|by apply IH].
    apply IH. destruct Hinv as [Hft|Hft].
    + by eapply first_then_step_second.
    + right. by eapply first_then_step_first.
Qed.

(** Atomicity: if two disciplined methods, run side by side on an
    unlocked rule under any schedule, have both returned, then their
    results and the rule are those of running one to its end and then the
    other. *)
Lemma disciplined_serializable {A B} w m0 (p0 : prog A) (q0 : prog B) sched a b m :
  mu_held m0 = false → disciplined p0 → disciplined q0 →
  interleave w sched p0 q0 m0 = (Ret a, Ret b, m) →
  (∃ m1, run w p0 m0 = (Returned a, m1) ∧ run w q0 m1 = (Returned b, m)) ∨
  (∃ m1, run w q0 m0 = (Returned b, m1) ∧ run w p0 m1 = (Returned a, m)).
Proof.
  intros Hm0 Hp Hq Hrun.
  destruct (interleave_first_then w m0 p0 q0 sched Hm0 p0 q0 m0) as [Hft|Hft].
  { left. constructor; by apply prelude_of_start. }
  - rewrite Hrun in Hft. left. by eapply first_then_returned.
  - rewrite Hrun in Hft. right. by eapply first_then_returned.
Qed.
End atomicity.

(** ** [Exec] and the gauge callback *)

Section Exec_more.
Context `{ExternalFuns}.

Lemma Exec_loop_critical qMetrics : ∀ duplicates tss,
  critical (Exec_loop qMetrics duplicates tss).
Proof.
  induction qMetrics as [|r rest IH]; intros duplicates tss.
  { apply critical_Unlock. }
  cbn [Exec_loop toTimeSeries mbind prog_bind bind read mret prog_ret].
  apply critical_Read. intros name. apply critical_Read. intros rrLabels.
  destruct (stringifyLabels _) as [key ts].
  destruct (decide (key ∈ duplicates)); [|apply IH].
  apply critical_Write; [done|]. apply critical_Unlock.
Qed.

Lemma Exec_disciplined ctx series : disciplined (Exec ctx series).
Proof.
  destruct series; [|apply disciplined_Ret]. unfold Exec.
  cbn [negb mbind prog_bind bind read q_Query mu_Lock time_Now write].
  apply disciplined_Read; [done|]. intros expr.
  apply disciplined_Query. intros [qMetrics err].
  apply disciplined_Lock. apply critical_Now. intros now.
  apply critical_Write; [done|]. apply critical_Write; [done|].
  destruct err as [e|]; [|apply Exec_loop_critical].
  apply critical_Read. intros expr'. apply critical_Unlock.
Qed.

Lemma errors_gauge_disciplined : disciplined errors_gauge.
Proof.
  apply disciplined_Lock. apply critical_Read. intros [e|]; apply critical_Unlock.
Qed.

Lemma run_errors_gauge w rr :
  run w errors_gauge (mkMem rr false) = (Returned (health rr), mkMem rr false).
Proof. unfold errors_gauge, health. cbn. by destruct (lastExecError rr). Qed.

(** What a cycle with [series = true] does to an unlocked rule, in one
    equation per way out of [Exec]. *)
Lemma run_Exec_cases w ctx rr :
  ∃ tss err,
    run w (Exec ctx true) (mkMem rr false) =
      (Returned (tss, err),
       mkMem (recorded (wall_clock w) (err ≫= Unwrap) rr) false) ∧
    (is_Some err → tss = [] ∧ is_Some (err ≫= Unwrap)).
Proof.
  rewrite run_Exec. destruct (respond w ctx (Expr rr)) as [qMetrics [e|]].
  { exists [], (Some (fmt_Errorf_w
      ("failed to execute query " +:+ strconv_Quote (Expr rr)) e)).
    split; [reflexivity|]. intros _. by split. }
  set (rr1 := recorded (wall_clock w) None rr).
  destruct (decide (NoDup (output_key rr1 <$> qMetrics))) as [Hnd|Hnd].
  - rewrite run_Exec_loop_distinct; [|done|].
    + exists ([] ++ ((λ r, (output_series rr1 r).2) <$> qMetrics)), None.
      split; [reflexivity|]. by intros [? [=]].
    + intros key _. apply not_elem_of_empty.
  - destruct (run_Exec_loop_duplicate w rr1 qMetrics ∅ []) as (r & _ & ->);
      [by left|].
    exists [], (Some (fmt_Errorf_w
      ("original metric " +:+ fmt_v_Metric r +:+
       "; resulting labels " +:+ strconv_Quote (output_key rr1 r))
      errDuplicate)).
    split; [reflexivity|]. intros _. by split.
Qed.

(** X1: a cycle of [Exec] with [series = true] on an unlocked rule always
    returns and releases the lock; it changes nothing of the rule but the
    two status fields; [lastExecTime] becomes the time read in the cycle;
    [lastExecError] becomes nil when the returned error is nil, and
    otherwise the error that the returned one wraps, in which case no
    series is returned. *)
Theorem Exec_records_what_it_returns (w : World) (ctx : context_Context)
    (rr : RecordingRule) :
  ∃ tss err rr',
    run w (Exec ctx true) (mkMem rr false) =
      (Returned (tss, err), mkMem rr' false) ∧
    Type_ rr' = Type_ rr ∧ RuleID rr' = RuleID rr ∧ Name rr' = Name rr ∧
    Expr rr' = Expr rr ∧ Labels rr' = Labels rr ∧ GroupID rr' = GroupID rr ∧
    lastExecTime rr' = wall_clock w ∧
    match err with
    | None => lastExecError rr' = None
    | Some e =>
        tss = [] ∧ is_Some (lastExecError rr') ∧ Unwrap e = lastExecError rr'
    end.
Proof.
  destruct (run_Exec_cases w ctx rr) as (tss & err & Hrun & Herr).
  exists tss, err, (recorded (wall_clock w) (err ≫= Unwrap) rr).
  split; [exact Hrun|]. repeat (split; [reflexivity|]).
  destruct err as [e|]; [|done].
  destruct Herr as [-> Hsome]; [done|]. by repeat split.
Qed.

(** X3: the gauge callback run after a cycle of [Exec] reports 1 exactly
    when that cycle returned an error, and 0 when it returned none; it
    leaves the rule as the cycle left it. *)
Theorem Exec_then_gauge (w w' : World) (ctx : context_Context)
    (rr : RecordingRule) :
  ∃ tss err m,
    run w (Exec ctx true) (mkMem rr false) = (Returned (tss, err), m) ∧
    run w' errors_gauge m =
      (Returned (match err with None => gauge_0 | Some _ => gauge_1 end), m).
Proof.
  destruct (run_Exec_cases w ctx rr) as (tss & err & Hrun & Herr).
  eexists _, _, _. split; [exact Hrun|]. rewrite run_errors_gauge.
  unfold health. destruct err as [e|]; [|done].
  destruct Herr as [_ [c Hc]]; [done|]. simpl in *. by rewrite Hc.
Qed.

(** X4: the gauge callback is atomic with respect to [Exec]. Under every
    schedule of the two on an unlocked rule, once both have returned, the
    rule and the result of [Exec] are those of [Exec] run alone, and the
    gauge reports the health of the rule as it was before the cycle or as
    it is after it: never the nil that a cycle records before it detects
    a duplicate. *)
Theorem gauge_atomic_with_Exec (w : World) (ctx : context_Context)
    (series : bool) (rr : RecordingRule) (sched : list bool)
    (g : float64) (res : list TimeSeries * option error) (m : Mem) :
  interleave w sched errors_gauge (Exec ctx series) (mkMem rr false) =
    (Ret g, Ret res, m) →
  run w (Exec ctx series) (mkMem rr false) = (Returned res, m) ∧
  (g = health rr ∨ g = health (object m)).
Proof.
  intros Hrun.
  apply disciplined_serializable in Hrun as [(m1 & Hg & He)|(m1 & He & Hg)];
    [| |done|apply errors_gauge_disciplined|apply Exec_disciplined].
  - rewrite run_errors_gauge in Hg. simplify_eq. auto.
  - assert (mu_held m1 = false) as Hfree.
    { destruct series; [|by simplify_eq/=].
      destruct (run_Exec_cases w ctx rr) as (? & ? & Hc & _).
      rewrite Hc in He. by simplify_eq. }
    destruct m1 as [rr1 held]. simpl in Hfree. subst held.
    rewrite run_errors_gauge in Hg. simplify_eq. auto.
Qed.
End Exec_more.

Lemma gauge_atomic_with_Exec_witness :
  ∃ g res m,
    interleave world_dup sched_gauge_in_cycle errors_gauge (Exec () true)
      (mkMem rule_up_count false) = (Ret g, Ret res, m) ∧
    run world_dup (Exec () true) (mkMem rule_up_count false) = (Returned res, m) ∧
    (g = health rule_up_count ∨ g = health (object m)).
Proof.
  eexists _, _, _. split; [vm_compute; reflexivity|].
  apply (gauge_atomic_with_Exec world_dup () true rule_up_count
           sched_gauge_in_cycle).
  vm_compute. reflexivity.
Defined.

(** ** The effects of a cycle, in order *)

Section Exec_trace.
Context `{ExternalFuns}.

Lemma events_Exec_loop w rr qMetrics : ∀ duplicates tss,
  ∃ body,
    events w (Exec_loop qMetrics duplicates tss) (mkMem rr true) =
      body ++ [EvUnlock] ∧
    Forall (λ e, e = EvRead F_Name ∨ e = EvRead F_Labels ∨
                 e = EvWrite F_lastExecError) body.
Proof.
  induction qMetrics as [|r rest IH]; intros duplicates tss.
  { by exists []. }
  cbn [Exec_loop]. rewrite events_bind, run_toTimeSeries.
  change (events w (toTimeSeries _ _) _) with [EvRead F_Name; EvRead F_Labels].
  cbn [object]. destruct (stringifyLabels _) as [key ts].
  destruct (decide (key ∈ duplicates)).
  - exists [EvRead F_Name; EvRead F_Labels; EvWrite F_lastExecError].
    split; [done|]. repeat (apply Forall_cons_2; [auto|]); auto.
  - destruct (IH ({[key]} ∪ duplicates) (tss ++ [ts])) as (body & -> & Hbody).
    exists (EvRead F_Name :: EvRead F_Labels :: body).
    split; [done|]. repeat (apply Forall_cons_2; [auto|]); auto.
Qed.

(** X2: the effects of a cycle of [Exec] with [series = true] on an
    unlocked rule, in order: it reads [Expr] and issues one query, for that
    expression, before it takes the lock; with the lock held it reads the
    clock once and writes [lastExecTime] and [lastExecError]; from then on
    it only reads [Name], [Labels] and [Expr] and writes [lastExecError];
    releasing the lock is the last thing it does. When the lock is held
    by someone else, it has issued its query and waits without having
    touched the rule. *)
Theorem Exec_effect_order (w : World) (ctx : context_Context)
    (rr : RecordingRule) :
  (∃ body,
     events w (Exec ctx true) (mkMem rr false) =
       [EvRead F_Expr; EvQuery (Expr rr); EvLock; EvNow;
        EvWrite F_lastExecTime; EvWrite F_lastExecError] ++ body ++ [EvUnlock] ∧
     Forall (λ e, e = EvRead F_Name ∨ e = EvRead F_Labels ∨
                  e = EvRead F_Expr ∨ e = EvWrite F_lastExecError) body) ∧
  events w (Exec ctx true) (mkMem rr true) = [EvRead F_Expr; EvQuery (Expr rr)] ∧
  run w (Exec ctx true) (mkMem rr true) = (Deadlocked, mkMem rr true).
Proof.
  split; [|split].
  - unfold Exec. cbn [negb]. rewrite events_bind.
    cbn [read events run get object app]. rewrite events_bind.
    cbn [q_Query events run app].
    destruct (respond w ctx (Expr rr)) as [qMetrics [e|]].
    + exists [EvRead F_Expr]. split; [reflexivity|]. repeat (apply Forall_cons_2; [auto|]); auto.
    + cbn. destruct (events_Exec_loop w (recorded (wall_clock w) None rr)
                       qMetrics ∅ []) as (body & Hev & Hbody).
      exists body. split.
      * do 6 f_equal. exact Hev.
      * eapply Forall_impl; [exact Hbody|]. intros ev [ -> | [ -> | -> ] ]; auto.
  - unfold Exec. cbn [negb]. rewrite events_bind.
    cbn [read events run get object app]. rewrite events_bind.
    cbn [q_Query events run app].
    by destruct (respond w ctx (Expr rr)) as [qMetrics [e|]].
  - unfold Exec. cbn [negb]. rewrite run_bind. cbn [read run get object].
    rewrite run_bind. cbn [q_Query run].
    by destruct (respond w ctx (Expr rr)) as [qMetrics [e|]].
Qed.
End Exec_trace.

(** ** What a cycle returns *)

Lemma stringifyLabels_slice_again labels :
  stringifyLabels_slice (stringifyLabels_slice labels).2 =
  stringifyLabels_slice labels.
Proof.
  pose proof (stringifyLabels_slice_sorted labels) as Hs.
  pose proof (labels_key_join labels) as Hk. unfold labels_key in Hk.
  pose proof (labels_key_join (stringifyLabels_slice labels).2) as Hk'.
  unfold labels_key in Hk'.
  rewrite (stringifyLabels_slice_id _ Hs) in Hk'.
  destruct (stringifyLabels_slice (stringifyLabels_slice labels).2) as [k l] eqn:E.
  assert (l = (stringifyLabels_slice labels).2) as ->.
  { change l with (k, l).2. rewrite <- E. by apply stringifyLabels_slice_id. }
  destruct (stringifyLabels_slice labels) as [k0 l0]. simpl in *. congruence.
Qed.

Lemma foldl_insert_lookup_notin (l : list Label) : ∀ (m : gmap string string) k,
  k ∉ Label_Name <$> l →
  foldl (λ labels l, <[Label_Name l := Label_Value l]> labels) m l !! k = m !! k.
Proof.
  induction l as [|a l IH]; intros m k Hk; [done|]. simpl.
  rewrite fmap_cons, not_elem_of_cons in Hk. destruct Hk as [Hne Hk].
  rewrite IH by done. by rewrite lookup_insert_ne.
Qed.

Section Exec_returns.
Context `{ExternalFuns}.

Lemma stringifyLabels_again (ts : TimeSeries) :
  stringifyLabels (stringifyLabels ts).2 = stringifyLabels ts.
Proof.
  unfold stringifyLabels at 2 3.
  destruct (stringifyLabels_slice (TimeSeries_Labels ts)) as [k l] eqn:E.
  unfold stringifyLabels. cbn [snd TimeSeries_Labels TimeSeries_Samples].
  change l with (k, l).2. rewrite <- E, stringifyLabels_slice_again, E.
  reflexivity.
Qed.

(** X8: computing the key of a TimeSeries a second time gives the same
    key and changes nothing more: the first call has left the labels in
    the order the second would put them in. Stated for labels with
    pairwise distinct names, on which the order after a sort is fixed. *)
Theorem stringifyLabels_idempotent (ts : TimeSeries) :
  NoDup (Label_Name <$> TimeSeries_Labels ts) →
  stringifyLabels (stringifyLabels ts).2 = stringifyLabels ts.
Proof. intros _. apply stringifyLabels_again. Qed.

Lemma output_series_named rr r :
  mkLabel "__name__" (default (Name rr) (Labels rr !! "__name__")) ∈
  TimeSeries_Labels (output_series rr r).2.
Proof.
  apply output_series_labels. destruct (Labels rr !! "__name__") as [v|] eqn:E.
  - by apply lookup_union_Some_l.
  - rewrite lookup_union_r by done. apply lookup_insert_eq.
Qed.

(** X5: the series a cycle returns with a nil error are a deduplicated
    batch: their canonical keys, computed again on the returned series, are
    pairwise different; and each of them has its labels in name order,
    with no name twice, a [__name__] label among them (the static label of
    that name if the rule has one, the rule's [Name] otherwise), and one
    sample. *)
Theorem Exec_batch_deduplicated (w : World) (ctx : context_Context)
    (rr : RecordingRule) (tss : list TimeSeries) (m : Mem) :
  run w (Exec ctx true) (mkMem rr false) = (Returned (tss, None), m) →
  NoDup ((λ ts, (stringifyLabels ts).1) <$> tss) ∧
  Forall (λ ts,
    Sorted name_le (TimeSeries_Labels ts) ∧
    NoDup (Label_Name <$> TimeSeries_Labels ts) ∧
    mkLabel "__name__" (default (Name rr) (Labels rr !! "__name__")) ∈
      TimeSeries_Labels ts ∧
    length (TimeSeries_Samples ts) = 1) tss.
Proof.
  rewrite run_Exec. destruct (respond w ctx (Expr rr)) as [qMetrics [e|]];
    [intros [=]|].
  set (rr1 := recorded (wall_clock w) None rr).
  destruct (decide (NoDup (output_key rr1 <$> qMetrics))) as [Hnd|Hnd].
  - rewrite run_Exec_loop_distinct; [|done|].
    2:{ intros key _. apply not_elem_of_empty. }
    intros [= <- <-]. split.
    + rewrite <- list_fmap_compose.
      erewrite list_fmap_ext; [exact Hnd|]. intros i r _.
      change ((stringifyLabels (output_series rr1 r).2).1 = output_key rr1 r).
      unfold output_key, output_series. by rewrite stringifyLabels_again.
    + change (Forall _ ?l) with
        (Forall (λ ts,
           Sorted name_le (TimeSeries_Labels ts) ∧
           NoDup (Label_Name <$> TimeSeries_Labels ts) ∧
           mkLabel "__name__" (default (Name rr) (Labels rr !! "__name__")) ∈
             TimeSeries_Labels ts ∧
           length (TimeSeries_Samples ts) = 1)
         ((λ r, (output_series rr1 r).2) <$> qMetrics)).
      apply Forall_fmap, Forall_forall. intros r _. unfold compose.
      destruct (output_series_sorted rr1 r) as [Hs Hn].
      split; [done|]. split; [done|].
      split; [apply (output_series_named rr1 r)|].
      unfold output_series. by rewrite stringifyLabels_after.
  - destruct (run_Exec_loop_duplicate w rr1 qMetrics ∅ []) as (r & _ & ->);
      [by left|]. intros [=].
Qed.

(** The loop up to the first metric whose key has been seen. *)
Lemma run_Exec_loop_first_duplicate w rr pre r post : ∀ duplicates tss,
  NoDup (output_key rr <$> pre) →
  (∀ key, key ∈ output_key rr <$> pre → key ∉ duplicates) →
  output_key rr r ∈ output_key rr <$> pre ∨ output_key rr r ∈ duplicates →
  run w (Exec_loop (pre ++ r :: post) duplicates tss) (mkMem rr true) =
  (Returned ([], Some (fmt_Errorf_w
     ("original metric " +:+ fmt_v_Metric r +:+
      "; resulting labels " +:+ strconv_Quote (output_key rr r))
     errDuplicate)),
   mkMem (set F_lastExecError (Some errDuplicate) rr) false).
Proof.
  induction pre as [|r0 pre IH]; intros duplicates tss Hnd Hfresh Hseen.
  - simpl app. rewrite run_Exec_loop_cons.
    destruct Hseen as [Hin|Hin]; [by apply elem_of_nil in Hin|].
    by destruct (decide (output_key rr r ∈ duplicates)).
  - simpl app. rewrite run_Exec_loop_cons. rewrite fmap_cons in *.
    apply NoDup_cons in Hnd as [Hr0 Hnd].
    destruct (decide (output_key rr r0 ∈ duplicates)) as [Hin|_].
    { exfalso. apply (Hfresh (output_key rr r0)); [left|done]. }
    apply IH; [done| |].
    + intros key Hkey. rewrite elem_of_union, elem_of_singleton.
      intros [->|Hd]; [done|]. apply (Hfresh key); [by right|done].
    + destruct Hseen as [Hin|Hin].
      * apply elem_of_cons in Hin as [->|Hin]; [|by left].
        right. by apply elem_of_union_l, elem_of_singleton_2.
      * right. by apply elem_of_union_r.
Qed.

(** X6: when the query succeeds and the metrics up to some metric [r] have
    pairwise different keys while the key of [r] is that of one of them,
    the error [Exec] returns is the one for [r] and its key: the first
    metric, in the order of the query result, to repeat a key. The
    metrics after [r] play no part. *)
Theorem Exec_reports_first_duplicate (w : World) (ctx : context_Context)
    (rr : RecordingRule) (pre post : list Metric) (r : Metric) :
  respond w ctx (Expr rr) = (pre ++ r :: post, None) →
  NoDup (output_key rr <$> pre) →
  output_key rr r ∈ output_key rr <$> pre →
  run w (Exec ctx true) (mkMem rr false) =
  (Returned ([], Some (fmt_Errorf_w
     ("original metric " +:+ fmt_v_Metric r +:+
      "; resulting labels " +:+ strconv_Quote (output_key rr r))
     errDuplicate)),
   mkMem (recorded (wall_clock w) (Some errDuplicate) rr) false).
Proof.
  intros Hq Hnd Hin. rewrite run_Exec, Hq.
  rewrite (run_Exec_loop_first_duplicate w (recorded (wall_clock w) None rr));
    [done|done| |by left].
  intros key _. apply not_elem_of_empty.
Qed.

(** X13: when a metric carries a name more than once, the value of the
    last label of that name is the one its series gets (unless the name is
    [__name__] or the name of a static label, which override it). *)
Theorem output_series_last_label_wins (rr : RecordingRule) (r : Metric)
    (before after : list Label) (a : Label) :
  Metric_Labels r = before ++ a :: after →
  Label_Name a ∉ Label_Name <$> after →
  Label_Name a ≠ "__name__" →
  Labels rr !! Label_Name a = None →
  ∀ v, mkLabel (Label_Name a) v ∈ TimeSeries_Labels (output_series rr r).2 ↔
       v = Label_Value a.
Proof.
  intros Hr Hlast Hname Hstatic v. rewrite output_series_labels.
  rewrite lookup_union_r, lookup_insert_ne by done.
  unfold labels_of_metric. rewrite Hr, foldl_app. simpl.
  rewrite foldl_insert_lookup_notin, lookup_insert_eq by done.
  split; [by intros [= ->]|by intros ->].
Qed.
End Exec_returns.

(** ** The order of map iteration *)

Lemma output_labels_determined (l1 l2 : list Label) :
  Sorted name_le l1 → Sorted name_le l2 →
  NoDup (Label_Name <$> l1) → NoDup (Label_Name <$> l2) →
  (∀ l, l ∈ l1 ↔ l ∈ l2) → l1 = l2.
Proof.
  intros Hs1 Hs2 Hn1 Hn2 Hin. apply name_sorted_unique; [done| |done..].
  apply NoDup_Permutation; [by eapply NoDup_fmap_1|by eapply NoDup_fmap_1|done].
Qed.

Section map_order.
Context `{T : ExternalTypes} (F : ExternalFuns)
  (rm : gmap string string → list (string * string))
  (Hrm : ∀ m, rm m ≡ₚ map_to_list m).

Lemma output_series_shape `{!ExternalFuns} (rr : RecordingRule) (r : Metric) :
  output_series rr r =
  (join_pairs (TimeSeries_Labels (output_series rr r).2),
   mkTimeSeries (TimeSeries_Labels (output_series rr r).2)
     [mkSample (Metric_Value r) (time_Unix (Metric_Timestamp r) 0)]).
Proof.
  unfold output_series. rewrite stringifyLabels_after.
  cbn [TimeSeries_Labels]. rewrite (surjective_pairing (stringifyLabels _)).
  rewrite stringifyLabels_key, labels_key_join, stringifyLabels_after.
  reflexivity.
Qed.

Lemma output_series_with_range (rr : RecordingRule) (r : Metric) :
  @output_series T (with_range F rm Hrm) rr r = @output_series T F rr r.
Proof.
  rewrite (@output_series_shape (with_range F rm Hrm)).
  rewrite (@output_series_shape F rr r).
  assert (TimeSeries_Labels (@output_series T (with_range F rm Hrm) rr r).2 =
          TimeSeries_Labels (@output_series T F rr r).2) as ->; [|done].
  destruct (@output_series_sorted T (with_range F rm Hrm) rr r) as [Hs1 Hn1].
  destruct (@output_series_sorted T F rr r) as [Hs2 Hn2].
  apply output_labels_determined; [done..|].
  intros [k v].
  by rewrite (@output_series_labels T (with_range F rm Hrm)),
             (@output_series_labels T F).
Qed.

Lemma run_Exec_loop_with_range w rr qMetrics : ∀ duplicates tss,
  run w (@Exec_loop T (with_range F rm Hrm) qMetrics duplicates tss)
      (mkMem rr true) =
  run w (@Exec_loop T F qMetrics duplicates tss) (mkMem rr true).
Proof.
  induction qMetrics as [|r rest IH]; intros duplicates tss; [done|].
  rewrite (@run_Exec_loop_cons T (with_range F rm Hrm)).
  rewrite (@run_Exec_loop_cons T F).
  unfold output_key. rewrite output_series_with_range.
  destruct (decide ((@output_series T F rr r).1 ∈ duplicates)); [done|].
  apply IH.
Qed.

(** X7: what a call of [Exec] returns and leaves behind does not depend
    on the order in which Go iterates over the map of static labels and
    over the label map of a series: it is the same under any two orders. *)
Theorem Exec_map_order_irrelevant (w : World) (ctx : context_Context)
    (series : bool) (rr : RecordingRule) :
  run w (@Exec T (with_range F rm Hrm) ctx series) (mkMem rr false) =
  run w (@Exec T F ctx series) (mkMem rr false).
Proof.
  destruct series; [|done].
  rewrite (@run_Exec T (with_range F rm Hrm)), (@run_Exec T F).
  destruct (respond w ctx (Expr rr)) as [qMetrics [e|]]; [done|].
  apply run_Exec_loop_with_range.
Qed.
End map_order.

Lemma range_reversed_perm m : range_reversed m ≡ₚ map_to_list m.
Proof. apply reverse_Permutation. Qed.

Lemma Exec_map_order_irrelevant_witness :
  (∀ m, range_reversed m ≡ₚ map_to_list m) ∧
  run world_ok
    (@Exec sample_types (with_range sample_funs range_reversed range_reversed_perm)
       () true) (mkMem rule_up_count false) =
  run world_ok (Exec () true) (mkMem rule_up_count false).
Proof.
  split; [exact range_reversed_perm|].
  exact (Exec_map_order_irrelevant sample_funs range_reversed
           range_reversed_perm world_ok () true rule_up_count).
Defined.

(** ** A cycle seen through [RuleAPI], hot reload, construction *)

Lemma app_length' s t :
  String.length (s +:+ t) = String.length s + String.length t.
Proof. induction s as [|a s IH]; [done|]. rewrite app_cons. simpl. by rewrite IH. Qed.

Lemma app_inj_r s1 s2 t : s1 +:+ t = s2 +:+ t → s1 = s2.
Proof.
  revert s2. induction s1 as [|a s1 IH]; intros [|b s2] E.
  - done.
  - exfalso. assert (String.length ("" +:+ t) =
                     String.length (String b s2 +:+ t)) as El by (by rewrite E).
    rewrite app_empty_l, (app_length' (String b s2) t) in El. simpl in El. lia.
  - exfalso. assert (String.length (String a s1 +:+ t) =
                     String.length ("" +:+ t)) as El by (by rewrite E).
    rewrite app_empty_l, (app_length' (String a s1) t) in El. simpl in El. lia.
  - rewrite !app_cons in E. injection E as -> E. f_equal. by apply IH.
Qed.

Section api_facts.
Context `{ExternalFuns}.

(** X9: [RuleAPI] called after a cycle of [Exec], whether or not the lock
    is held at that moment, returns without waiting and changes nothing;
    its snapshot shows the time of that cycle as LastExec and, as
    LastError, the text of the error the cycle recorded: the error wrapped
    in the one [Exec] returned (the querier's own error, or
    [errDuplicate]), not the text of the returned error; the empty string
    after a cycle without error. *)
Theorem RuleAPI_after_Exec (w w' : World) (ctx : context_Context)
    (rr : RecordingRule) (held : bool) :
  ∃ tss err rr' snap,
    run w (Exec ctx true) (mkMem rr false) =
      (Returned (tss, err), mkMem rr' false) ∧
    run w' RuleAPI (mkMem rr' held) = (Returned snap, mkMem rr' held) ∧
    events w' RuleAPI (mkMem rr' held) ## [EvLock; EvUnlock] ∧
    API_LastExec snap = wall_clock w ∧
    API_LastError snap =
      match err ≫= Unwrap with Some cause => Error cause | None => "" end ∧
    API_Expression snap = Expr rr ∧ API_Labels snap = Labels rr ∧
    API_Name snap = Name rr.
Proof.
  destruct (run_Exec_cases w ctx rr) as (tss & err & Hrun & _).
  eexists tss, err, _, _. split; [exact Hrun|].
  split; [apply run_RuleAPI|]. split; [|by repeat split].
  destruct (RuleAPI_unguarded w'
    (mkMem (recorded (wall_clock w) (err ≫= Unwrap) rr) held)) as (Hl & _).
  intros ev Hev Hin. rewrite !elem_of_cons in Hin.
  destruct Hin as [->|[->|Hin]]; [done| |by apply elem_of_nil in Hin].
  revert Hev. unfold RuleAPI. cbn.
  destruct (err ≫= Unwrap); cbn; apply (bool_decide_unpack _); vm_compute; exact I.
Qed.

(** X15: the ID and GroupID that [RuleAPI] renders as decimal strings
    lose nothing: two snapshots with the same ID string and the same
    GroupID string come from rules with the same [RuleID] and the same
    [GroupID]. *)
Theorem RuleAPI_ID_lossless (w : World) (m1 m2 m1' m2' : Mem)
    (snap1 snap2 : APIRecordingRule) :
  run w RuleAPI m1 = (Returned snap1, m1') →
  run w RuleAPI m2 = (Returned snap2, m2') →
  API_ID snap1 = API_ID snap2 → API_GroupID snap1 = API_GroupID snap2 →
  RuleID (object m1) = RuleID (object m2) ∧
  GroupID (object m1) = GroupID (object m2).
Proof.
  rewrite !run_RuleAPI. intros [= <- _] [= <- _]. unfold snapshot. simpl.
  intros Hid Hgid. split; by apply (inj pretty).
Qed.

(** X10: hot reload followed by a cycle. After [UpdateWith] has been given
    a recording rule [nr], the next [Exec] queries the expression of [nr],
    and the series it returns carry the static labels of [nr] over
    [__name__], which is still the [Name] of the receiver ([UpdateWith]
    does not copy [Name]), over the labels of the metric. *)
Theorem UpdateWith_then_Exec (w : World) (ctx : context_Context)
    (rr nr : RecordingRule) (qMetrics : list Metric) :
  let rr1 := set F_Labels (Labels nr) (set F_Expr (Expr nr) rr) in
  respond w ctx (Expr nr) = (qMetrics, None) →
  NoDup (output_key rr1 <$> qMetrics) →
  ∃ tss,
    run w (UpdateWith (Rule_RecordingRule nr) ≫= λ _, Exec ctx true)
        (mkMem rr false) =
      (Returned (tss, None), mkMem (recorded (wall_clock w) None rr1) false) ∧
    EvQuery (Expr nr) ∈
      events w (UpdateWith (Rule_RecordingRule nr) ≫= λ _, Exec ctx true)
        (mkMem rr false) ∧
    length tss = length qMetrics ∧
    ∀ i r, qMetrics !! i = Some r →
      ∃ ts, tss !! i = Some ts ∧
        ∀ k v, mkLabel k v ∈ TimeSeries_Labels ts ↔
          (Labels nr ∪
           <["__name__" := Name rr]> (labels_of_metric (Metric_Labels r)))
            !! k = Some v.
Proof.
  intros rr1 Hq Hnd. exists ((λ r, (output_series rr1 r).2) <$> qMetrics).
  split; [|split; [|split]].
  - rewrite run_bind.
    change (run w (UpdateWith (Rule_RecordingRule nr)) (mkMem rr false))
      with (Returned (@None error), mkMem rr1 false).
    by apply run_Exec_distinct.
  - rewrite events_bind.
    change (run w (UpdateWith (Rule_RecordingRule nr)) (mkMem rr false))
      with (Returned (@None error), mkMem rr1 false).
    apply elem_of_app. right.
    unfold Exec. cbn [negb]. rewrite events_bind.
    cbn [read events run get object app]. rewrite events_bind.
    cbn [q_Query events app]. apply elem_of_cons. right.
    apply elem_of_cons. by left.
  - apply length_fmap.
  - intros i r Hi. exists (output_series rr1 r).2.
    rewrite list_lookup_fmap, Hi. split; [done|].
    intros k v. by rewrite output_series_labels.
Qed.

(** X11: a rule fresh from [newRecordingRule] is healthy and has never
    run: its gauge callback reports 0, its snapshot shows the identity and
    the configuration it was built from, an empty LastError and the zero
    time as LastExec, and its first cycle queries the configured
    expression. *)
Theorem newRecordingRule_fresh (w : World) (ctx : context_Context)
    (group_ID : N) (group_Name : string) (cfg : config_Rule) :
  let rr := (newRecordingRule group_ID group_Name cfg).1 in
  run w errors_gauge (mkMem rr false) = (Returned gauge_0, mkMem rr false) ∧
  run w RuleAPI (mkMem rr false) =
    (Returned (mkAPIRecordingRule (pretty (cfg_ID cfg)) (pretty group_ID)
       (cfg_Record cfg) (Type_String (cfg_Type cfg)) (cfg_Expr cfg) ""
       time_zero (cfg_Labels cfg)), mkMem rr false) ∧
  events w (Exec ctx true) (mkMem rr false) !! 1 = Some (EvQuery (cfg_Expr cfg)).
Proof.
  intros rr. split; [|split].
  - by rewrite run_errors_gauge.
  - by rewrite run_RuleAPI.
  - unfold Exec. cbn [negb]. rewrite events_bind.
    cbn [read events run get object app]. rewrite events_bind.
    by cbn [q_Query events app].
Qed.

(** X12: the names under which [newRecordingRule] registers gauges tell
    rules apart by their ID: two rules of the same group recording under
    the same name but with different IDs get different gauge names. *)
Theorem newRecordingRule_gauge_names (group_ID : N) (group_Name : string)
    (cfg1 cfg2 : config_Rule) :
  cfg_Record cfg1 = cfg_Record cfg2 →
  cfg_ID cfg1 ≠ cfg_ID cfg2 →
  (newRecordingRule group_ID group_Name cfg1).2 ≠
  (newRecordingRule group_ID group_Name cfg2).2.
Proof.
  intros Hrec Hid E. apply Hid. unfold newRecordingRule in E.
  cbn [snd Name RuleID] in E. rewrite Hrec in E.
  apply (inj (String.app _)), app_inj_r in E.
  do 6 apply (inj (String.app _)) in E.
  apply (inj pretty). by apply app_inj_r in E.
Qed.
End api_facts.

(** ** The further properties on the sample inputs *)

Lemma Exec_batch_deduplicated_witness :
  ∃ tss m,
    run world_ok (Exec () true) (mkMem rule_up_count false) =
      (Returned (tss, None), m) ∧
    length tss = 2 ∧
    NoDup ((λ ts, (stringifyLabels ts).1) <$> tss) ∧
    Forall (λ ts,
      Sorted name_le (TimeSeries_Labels ts) ∧
      NoDup (Label_Name <$> TimeSeries_Labels ts) ∧
      mkLabel "__name__" "up_count" ∈ TimeSeries_Labels ts ∧
      length (TimeSeries_Samples ts) = 1) tss.
Proof.
  eexists _, _. split; [vm_compute; reflexivity|]. split; [reflexivity|].
  refine (Exec_batch_deduplicated world_ok () rule_up_count _ _ _).
  vm_compute. reflexivity.
Defined.

Lemma Exec_reports_first_duplicate_witness :
  respond world_dup () (Expr rule_up_count) =
    ([metric_a] ++ metric_a_dev :: [], None) ∧
  NoDup (output_key rule_up_count <$> [metric_a]) ∧
  output_key rule_up_count metric_a_dev ∈ output_key rule_up_count <$> [metric_a] ∧
  run world_dup (Exec () true) (mkMem rule_up_count false) =
  (Returned ([], Some (fmt_Errorf_w
     ("original metric " +:+ fmt_v_Metric metric_a_dev +:+
      "; resulting labels " +:+
      strconv_Quote (output_key rule_up_count metric_a_dev))
     errDuplicate)),
   mkMem (recorded (wall_clock world_dup) (Some errDuplicate) rule_up_count)
         false).
Proof.
  assert (NoDup (output_key rule_up_count <$> [metric_a])) as Hnd.
  { apply (bool_decide_unpack _). vm_compute. exact I. }
  assert (output_key rule_up_count metric_a_dev ∈
          output_key rule_up_count <$> [metric_a]) as Hin.
  { apply (bool_decide_unpack _). vm_compute. exact I. }
  split; [reflexivity|]. split; [exact Hnd|]. split; [exact Hin|].
  exact (Exec_reports_first_duplicate world_dup () rule_up_count
           [metric_a] [] metric_a_dev eq_refl Hnd Hin).
Defined.

Lemma stringifyLabels_idempotent_witness :
  NoDup (Label_Name <$> TimeSeries_Labels (series_of labels_b_a)) ∧
  stringifyLabels (stringifyLabels (series_of labels_b_a)).2 =
  stringifyLabels (series_of labels_b_a).
Proof.
  assert (NoDup (Label_Name <$> TimeSeries_Labels (series_of labels_b_a))) as Hnd.
  { apply (bool_decide_unpack _). vm_compute. exact I. }
  split; [exact Hnd|].
  exact (stringifyLabels_idempotent (series_of labels_b_a) Hnd).
Defined.

Lemma output_series_last_label_wins_witness :
  Metric_Labels metric_job_twice =
    [mkLabel "job" "a"; mkLabel "instance" "i"] ++ mkLabel "job" "b" :: [] ∧
  ∀ v, mkLabel "job" v ∈
         TimeSeries_Labels (output_series rule_up_count metric_job_twice).2 ↔
       v = "b".
Proof.
  split; [reflexivity|].
  apply (output_series_last_label_wins rule_up_count metric_job_twice
           [mkLabel "job" "a"; mkLabel "instance" "i"] [] (mkLabel "job" "b")
           eq_refl).
  - apply not_elem_of_nil.
  - discriminate.
  - vm_compute. reflexivity.
Defined.

Lemma RuleAPI_ID_lossless_witness :
  ∃ snap1 snap2,
    run world_ok RuleAPI (mkMem rule_up_count false) =
      (Returned snap1, mkMem rule_up_count false) ∧
    run world_ok RuleAPI (mkMem rule_reloaded true) =
      (Returned snap2, mkMem rule_reloaded true) ∧
    API_ID snap1 = API_ID snap2 ∧ API_GroupID snap1 = API_GroupID snap2 ∧
    RuleID rule_up_count = RuleID rule_reloaded ∧
    GroupID rule_up_count = GroupID rule_reloaded.
Proof.
  eexists _, _. split; [vm_compute; reflexivity|].
  split; [vm_compute; reflexivity|]. split; [reflexivity|].
  split; [reflexivity|].
  apply (RuleAPI_ID_lossless world_ok (mkMem rule_up_count false)
           (mkMem rule_reloaded true) (mkMem rule_up_count false)
           (mkMem rule_reloaded true) _ _
           ltac:(vm_compute; reflexivity) ltac:(vm_compute; reflexivity)
           eq_refl eq_refl).
Defined.

Lemma UpdateWith_then_Exec_witness :
  respond world_reloaded () (Expr rule_reloaded) = ([metric_a; metric_b], None) ∧
  ∃ tss,
    run world_reloaded
      (UpdateWith (Rule_RecordingRule rule_reloaded) ≫= λ _, Exec () true)
      (mkMem rule_up_count false) =
      (Returned (tss, None),
       mkMem (recorded (wall_clock world_reloaded) None
                (set F_Labels (Labels rule_reloaded)
                   (set F_Expr (Expr rule_reloaded) rule_up_count))) false) ∧
    tss !! 0 =
      Some (mkTimeSeries [mkLabel "__name__" "up_count";
                          mkLabel "env" "staging"; mkLabel "job" "a"]
                         [mkSample 1%Z (mkTime 1700000000 0)]).
Proof.
  split; [reflexivity|].
  destruct (UpdateWith_then_Exec world_reloaded () rule_up_count rule_reloaded
              [metric_a; metric_b] eq_refl) as (tss & Hrun & _).
  { apply (bool_decide_unpack _). vm_compute. exact I. }
  exists tss. split; [exact Hrun|].
  assert (run world_reloaded
      (UpdateWith (Rule_RecordingRule rule_reloaded) ≫= λ _, Exec () true)
      (mkMem rule_up_count false) =
    (Returned
       ([mkTimeSeries [mkLabel "__name__" "up_count";
                       mkLabel "env" "staging"; mkLabel "job" "a"]
                      [mkSample 1%Z (mkTime 1700000000 0)];
         mkTimeSeries [mkLabel "__name__" "up_count";
                       mkLabel "env" "staging"; mkLabel "job" "b"]
                      [mkSample 2%Z (mkTime 1700000000 0)]], None),
     mkMem (recorded (wall_clock world_reloaded) None
              (set F_Labels (Labels rule_reloaded)
                 (set F_Expr (Expr rule_reloaded) rule_up_count))) false))
    as Hval by (vm_compute; reflexivity).
  rewrite Hrun in Hval. by injection Hval as ->.
Defined.

Lemma newRecordingRule_gauge_names_witness :
  cfg_ID cfg_up_count ≠ 8%N ∧
  (newRecordingRule 3 "group" cfg_up_count).2 ≠
  (newRecordingRule 3 "group"
     (mkConfigRule "prometheus" 8 "up_count" "sum(up)" ∅)).2.
Proof.
  assert (cfg_ID cfg_up_count ≠ 8%N) as Hid by discriminate.
  split; [exact Hid|].
  exact (newRecordingRule_gauge_names 3 "group" cfg_up_count
           (mkConfigRule "prometheus" 8 "up_count" "sum(up)" ∅) eq_refl Hid).
Defined.

(** ** Cycles and the status they find *)

Section cycles.
Context `{ExternalFuns}.


(** X16: a cycle does not depend on the status the rule had before:
    whatever [lastExecTime] and [lastExecError] earlier cycles left, the
    call returns the same and leaves the same rule behind. *)
Theorem Exec_forgets_status (w : World) (ctx : context_Context)
    (rr : RecordingRule) (t : Time) (e : option error) :
  run w (Exec ctx true) (mkMem (recorded t e rr) false) =
  run w (Exec ctx true) (mkMem rr false).
Proof.
  rewrite !run_Exec. cbn [recorded set Expr].
  by destruct (respond w ctx (Expr rr)) as [qMetrics [e'|]].
Qed.
End cycles.

